(** * Wan2GP image-to-video sampling orchestrator ([wan/image2video.py])

    A shallow embedding of [optimized_scale] and [WanI2V.generate].

    Modelling conventions.
    - Tensor entries are exact rationals ([Qc]); floating-point rounding of
      the torch kernels is not modelled.
    - A prediction or latent tensor is carried in the [(batch_size, -1)] view
      the source takes of it ([list (list Qc)], one inner list per row of
      that view).  Element-wise operations on tensors of different shapes
      raise [RuntimeError], as torch does when shapes do not broadcast.
    - The text and image encoders, the VAE, the denoiser, the schedulers,
      [torch.randn], [random.randint] and the [_interrupt] flag belong to the
      environment: they are fields of a record of collaborators acting on an
      abstract world state. *)

From Stdlib Require Import ZArith QArith Qround Qcanon List String Bool Lia.
Import ListNotations.

Local Open Scope Z_scope.

(** ** Tensors in their [(batch, features)] view *)

Module Tensor.

Definition row := list Qc.
Definition tensor := list row.

Definition same_len {A B : Type} (a : list A) (b : list B) : bool :=
  Nat.eqb (List.length a) (List.length b).

Definition same_shape (a b : tensor) : bool :=
  same_len a b && forallb (fun p => same_len (fst p) (snd p)) (combine a b).

Definition row_map2 (f : Qc -> Qc -> Qc) (a b : row) : row :=
  map (fun p => f (fst p) (snd p)) (combine a b).

Definition map2 (f : Qc -> Qc -> Qc) (a b : tensor) : tensor :=
  map (fun p => row_map2 f (fst p) (snd p)) (combine a b).

Definition add : tensor -> tensor -> tensor := map2 Qcplus.
Definition sub : tensor -> tensor -> tensor := map2 Qcminus.
Definition mul : tensor -> tensor -> tensor := map2 Qcmult.

(** [s * t] for a Python scalar [s]. *)
Definition scale (s : Qc) (t : tensor) : tensor := map (map (Qcmult s)) t.

(** [t * s] for a Python scalar [s]. *)
Definition scale_r (t : tensor) (s : Qc) : tensor :=
  map (map (fun x => (x * s)%Qc)) t.

(** [torch.sum(t, dim=1, keepdim=True)]: one entry per row. *)
Definition row_sum (r : row) : Qc := fold_right Qcplus 0%Qc r.
Definition sum_dim1 (t : tensor) : list Qc := map row_sum t.

(** [t ** 2]. *)
Definition square (t : tensor) : tensor := map (map (fun x => (x * x)%Qc)) t.

(** [t *= alpha] with [alpha] of shape [(batch, 1, 1, 1)]: row [r] of [t] is
    multiplied by [alpha[r]]. *)
Definition mul_rows (t : tensor) (alpha : list Qc) : tensor :=
  map (fun p => map (fun x => (x * snd p)%Qc) (fst p)) (combine t alpha).

Definition is_zero (t : tensor) : Prop :=
  Forall (Forall (fun x => x = 0%Qc)) t.

End Tensor.

Import Tensor.

(** ** [optimized_scale] (lines 30-41) *)

Definition eps : Qc := Q2Qc (1 # 100000000).

Definition optimized_scale (positive_flat negative_flat : tensor) : list Qc :=
  let dot_product := sum_dim1 (mul positive_flat negative_flat) in
  let squared_norm :=
    map (fun s => (s + eps)%Qc) (sum_dim1 (square negative_flat)) in
  let st_star :=
    map (fun p => (fst p / snd p)%Qc) (combine dot_product squared_norm) in
  st_star.

(** ** Guidance arithmetic of one step (lines 397-411) *)

Inductive exn : Type :=
| RuntimeError
| ValueError
| NotImplementedError.

(** The local variables the guidance block binds.  [noise_pred] is unbound
    ([None]) until an assignment reaches it. *)
Record guidance_locals : Type := {
  noise_pred : option tensor;
  noise_pred_uncond : tensor
}.

Definition cfg_star_block (cfg_zero_step : Z) (i : nat)
    (noise_pred_text noise_pred_uncond0 : tensor) : guidance_locals :=
  let positive_flat := noise_pred_text in
  let negative_flat := noise_pred_uncond0 in
  let alpha := optimized_scale positive_flat negative_flat in
  if Z.of_nat i <=? cfg_zero_step then
    {| noise_pred := Some (scale_r noise_pred_text 0%Qc);
       noise_pred_uncond := noise_pred_uncond0 |}
  else
    {| noise_pred := None;
       noise_pred_uncond := mul_rows noise_pred_uncond0 alpha |}.

Definition guidance (cfg_star_switch : bool) (cfg_zero_step : Z)
    (guide_scale : Qc) (i : nat)
    (noise_pred_cond noise_pred_uncond0 : tensor) : exn + tensor :=
  if negb (same_shape noise_pred_cond noise_pred_uncond0) then inl RuntimeError
  else
    let noise_pred_text := noise_pred_cond in
    let locals :=
      if cfg_star_switch then
        cfg_star_block cfg_zero_step i noise_pred_text noise_pred_uncond0
      else
        {| noise_pred := None; noise_pred_uncond := noise_pred_uncond0 |} in
    (* line 411 sits outside the [if cfg_star_switch] block: it rebinds
       [noise_pred] on every path, whatever the block stored in it *)
    inr (add (noise_pred_uncond locals)
             (scale guide_scale
                (sub noise_pred_text (noise_pred_uncond locals)))).

(** ** Python slices (step 1) over a list of length [n] *)

Module PySlice.

Definition clamp (n : nat) (k : Z) : nat :=
  if k <? 0 then Z.to_nat (Z.max 0 (Z.of_nat n + k))
  else Nat.min (Z.to_nat k) n.

Definition lower (n : nat) (o : option Z) : nat :=
  match o with None => 0%nat | Some k => clamp n k end.

Definition upper (n : nat) (o : option Z) : nat :=
  match o with None => n | Some k => clamp n k end.

(** [l[lo:hi]] *)
Definition slice {A : Type} (lo hi : option Z) (l : list A) : list A :=
  let n := List.length l in
  let a := lower n lo in
  let b := upper n hi in
  firstn (b - a) (skipn a l).

(** [l[lo:hi] = v], written as the update [f] of every element in range. *)
Definition fill {A : Type} (lo hi : option Z) (f : A -> A) (l : list A)
  : list A :=
  let n := List.length l in
  let a := lower n lo in
  let b := upper n hi in
  firstn a l ++ map f (firstn (b - a) (skipn a l)) ++ skipn (Nat.max a b) l.

End PySlice.

(** ** Conditioning mask (lines 230-242)

    The mask's leading axis has extent 1 until [[0]] indexes it away, so the
    model carries the axes [(temporal, lat_h, lat_w)] and, after the view and
    the transpose, [(4, groups, lat_h, lat_w)].  Entries are 0 or 1. *)

Module Mask.

Definition frame := list (list Z).
Definition mask := list (list frame).

Definition ones_frame (h w : nat) : frame := repeat (repeat 1 w) h.
Definition zero_fill (f : frame) : frame := map (map (fun _ => 0)) f.

(** [torch.repeat_interleave(x, repeats=k, dim=1)] *)
Definition repeat_interleave {A : Type} (k : nat) (l : list A) : list A :=
  flat_map (fun x => repeat x k) l.

(** [x.view(1, g, 4, lat_h, lat_w)] on the temporal axis: [g] groups of 4. *)
Fixpoint group4 {A : Type} (g : nat) (l : list A) : list (list A) :=
  match g with
  | O => []
  | S g' => firstn 4 l :: group4 g' (skipn 4 l)
  end.

(** [x.transpose(1, 2)[0]]: from [(groups, 4, ..)] to [(4, groups, ..)]. *)
Definition transpose12 (groups : list (list frame)) : mask :=
  map (fun c => map (fun grp => nth c grp []) groups) (seq 0 4).

(** lines 230-240: the frames after the anchor frames are replicated *)
Definition mask_frames (frame_num : Z) (any_end_frame add_frames : bool)
    (lat_h lat_w : nat) : list frame :=
  let msk := repeat (ones_frame lat_h lat_w) (Z.to_nat frame_num) in
  if any_end_frame then
    let msk := PySlice.fill (Some 1) (Some (-1)) zero_fill msk in
    if add_frames then
      repeat_interleave 4 (PySlice.slice (Some 0) (Some 1) msk)
      ++ PySlice.slice (Some 1) (Some (-1)) msk
      ++ repeat_interleave 4 (PySlice.slice (Some (-1)) None msk)
    else
      repeat_interleave 4 (PySlice.slice (Some 0) (Some 1) msk)
      ++ PySlice.slice (Some 1) None msk
  else
    let msk := PySlice.fill (Some 1) None zero_fill msk in
    repeat_interleave 4 (PySlice.slice (Some 0) (Some 1) msk)
    ++ PySlice.slice (Some 1) None msk.

(** lines 241-242: [msk.view(1, msk.shape[1] // 4, 4, lat_h, lat_w)], which
    needs the element counts to agree, then [msk.transpose(1, 2)[0]] *)
Definition view_groups (msk : list frame) (lat_h lat_w : nat) : exn + mask :=
  let len := List.length msk in
  let g := Nat.div len 4 in
  if Nat.eqb (g * 4 * lat_h * lat_w) (len * lat_h * lat_w) then
    inr (transpose12 (group4 g msk))
  else inl RuntimeError.

(** [torch.ones] rejects a negative extent. *)
Definition build_mask (frame_num : Z) (any_end_frame add_frames : bool)
    (lat_h lat_w : nat) : exn + mask :=
  if frame_num <? 0 then inl RuntimeError
  else
    view_groups (mask_frames frame_num any_end_frame add_frames lat_h lat_w)
      lat_h lat_w.

(** Temporal group [g] of a built mask: its four sub-channel frames. *)
Definition temporal_group (m : mask) (g : nat) : list frame :=
  map (fun ch => nth g ch []) m.

Definition groups (m : mask) : nat :=
  match m with [] => 0%nat | ch :: _ => List.length ch end.

Definition last_group (m : mask) : list frame :=
  temporal_group m (groups m - 1).

Definition frame_has_shape (h w : nat) (f : frame) : bool :=
  Nat.eqb (List.length f) h && forallb (fun r => Nat.eqb (List.length r) w) f.

(** [m.shape == (c, g, h, w)] *)
Definition has_shape (c g h w : nat) (m : mask) : bool :=
  Nat.eqb (List.length m) c
  && forallb (fun ch => Nat.eqb (List.length ch) g
                        && forallb (frame_has_shape h w) ch) m.

Definition frame_all (v : Z) (f : frame) : bool :=
  forallb (forallb (Z.eqb v)) f.

(** Every entry of every frame of the group is [v], and the group has its four
    sub-channels. *)
Definition entirely (v : Z) (grp : list frame) : bool :=
  Nat.eqb (List.length grp) 4 && forallb (frame_all v) grp.

End Mask.

(** ** Selective-layer window (lines 359-361) *)

(** Python's [int(x)] on a float: truncation toward zero. *)
Definition py_int (x : Qc) : Z := Z.quot (Qnum x) (Zpos (Qden x)).

Definition Qc_of_Z (z : Z) : Qc := Q2Qc (inject_Z z).

Definition in_slg_window (slg_start slg_end : Qc) (sampling_steps : Z)
    (i : nat) : bool :=
  (py_int (slg_start * Qc_of_Z sampling_steps) <=? Z.of_nat i)
  && (Z.of_nat i <? py_int (slg_end * Qc_of_Z sampling_steps)).

Definition slg_layers_local (slg_layers : option (list nat))
    (slg_start slg_end : Qc) (sampling_steps : Z) (i : nat)
  : option (list nat) :=
  if in_slg_window slg_start slg_end sampling_steps i then slg_layers
  else None.

(** ** Effects: events, collaborators, and the run monad *)

Definition video := list (list (list (list Qc))).

Inductive fwd_kind : Type := FwdJoint | FwdCond | FwdUncond.

(** What a call of [generate] does to the outside, in program order. *)
Inductive event : Type :=
| EvToTensor                                     (* TF.to_tensor *)
| EvResize (h w : Z)                             (* resize_lanczos *)
| EvRandInt (drawn : Z)                          (* random.randint *)
| EvRandn (seed : Z) (shape : Z * Z * Z * Z)     (* noise = torch.randn *)
| EvOnes (frames : Z) (h w : Z)                  (* msk = torch.ones *)
| EvTextEncoder (prompt : string)
| EvTextEncoderCpu
| EvClipVisual
| EvClipCpu
| EvUnloadAll
| EvEncAlloc (frames : Z) (h w : Z)              (* torch.full / torch.zeros *)
| EvVaeEncode (end_flag : bool)
| EvSetTimesteps (solver : string)
| EvRotaryPosEmbed
| EvEmptyCache
| EvTeacacheThreshold
| EvCallback (i : Z) (start : bool)
| EvSetStepNo (i : nat)
| EvForward (k : fwd_kind) (i : nat) (slg : option (list nat))
| EvPoll (i : nat) (flag : bool)                 (* if self._interrupt *)
| EvSolverStep (i : nat) (guided : tensor)       (* sample_scheduler.step *)
| EvModelCpu
| EvVaeDecode (end_flag : bool)
| EvGcCollect
| EvBarrier.

Inductive result (A : Type) : Type :=
| Ok (a : A)
| Raise (e : exn).
Arguments Ok {A} a.
Arguments Raise {A} e.

(** The environment of a call: [W] is the state of everything outside
    [generate] (encoders, denoiser with its caches, scheduler, Python's global
    random state, the [_interrupt] flag); [G] is the state of a
    [torch.Generator]. *)
Record collab (W G : Type) : Type := {
  (* calls whose result the orchestrator does not inspect *)
  ext : event -> W -> W;
  (* random.randint(0, sys.maxsize) *)
  randint : W -> Z * W;
  (* torch.Generator(...).manual_seed(seed) *)
  manual_seed : Z -> G;
  (* torch.randn(shape, generator=g) *)
  randn : G -> Z * Z * Z * Z -> tensor * G;
  (* scheduler construction and its timesteps *)
  unipc_timesteps : Z -> Qc -> W -> list Qc * W;
  dpm_timesteps : Z -> Qc -> W -> list Qc * W;
  (* self.model.enable_teacache *)
  enable_teacache : W -> bool;
  (* self.model(...) in its three call shapes *)
  forward_joint :
    Mask.mask -> tensor -> Qc -> nat -> option (list nat) -> W
    -> (tensor * tensor) * W;
  forward_cond : Mask.mask -> tensor -> Qc -> nat -> W -> tensor * W;
  forward_uncond :
    Mask.mask -> tensor -> Qc -> nat -> option (list nat) -> W -> tensor * W;
  (* self._interrupt *)
  interrupt : W -> bool;
  (* sample_scheduler.step(noise_pred, t, latent, generator=seed_g) *)
  sched_step : tensor -> Qc -> tensor -> G -> W -> (tensor * G) * W;
  (* self.vae.decode(x0, tile, any_end_frame=..)[0] *)
  vae_decode : tensor -> Z -> bool -> W -> video * W;
  (* dist.is_initialized() *)
  dist_initialized : W -> bool
}.
Arguments ext {W G} _ _ _.
Arguments randint {W G} _ _.
Arguments manual_seed {W G} _ _.
Arguments randn {W G} _ _ _.
Arguments unipc_timesteps {W G} _ _ _ _.
Arguments dpm_timesteps {W G} _ _ _ _.
Arguments enable_teacache {W G} _ _.
Arguments forward_joint {W G} _ _ _ _ _ _ _.
Arguments forward_cond {W G} _ _ _ _ _ _.
Arguments forward_uncond {W G} _ _ _ _ _ _ _.
Arguments interrupt {W G} _ _.
Arguments sched_step {W G} _ _ _ _ _ _.
Arguments vae_decode {W G} _ _ _ _ _.
Arguments dist_initialized {W G} _ _.

(** A computation reads and updates the world and emits events; an exception
    stops it and keeps the events emitted so far. *)
Definition M (W A : Type) : Type := W -> result A * W * list event.

Definition ret {W A : Type} (a : A) : M W A := fun w => (Ok a, w, []).

Definition raise {W A : Type} (e : exn) : M W A := fun w => (Raise e, w, []).

Definition bind {W A B : Type} (m : M W A) (f : A -> M W B) : M W B :=
  fun w =>
    match m w with
    | (Ok a, w1, t1) =>
        match f a w1 with
        | (r, w2, t2) => (r, w2, t1 ++ t2)
        end
    | (Raise e, w1, t1) => (Raise e, w1, t1)
    end.

Declare Scope run_scope.
Delimit Scope run_scope with run.
Notation "x <- m ;; k" := (bind m (fun x => k))
  (at level 61, m at next level, right associativity) : run_scope.
Notation "m ;;; k" := (bind m (fun _ => k))
  (at level 61, right associativity) : run_scope.

Definition emit {W : Type} (e : event) : M W unit := fun w => (Ok tt, w, [e]).

Definition when {W : Type} (b : bool) (m : M W unit) : M W unit :=
  if b then m else ret tt.

Definition lift_sum {W A : Type} (s : exn + A) : M W A :=
  match s with inl e => raise e | inr a => ret a end.

Definition result_of {W A : Type} (x : result A * W * list event) : result A :=
  fst (fst x).
Definition world_of {W A : Type} (x : result A * W * list event) : W :=
  snd (fst x).
Definition trace_of {W A : Type} (x : result A * W * list event)
  : list event := snd x.

(** ** [WanI2V] and the arguments of [generate] *)

Record image : Type := { img_h : positive; img_w : positive }.

(** The fields of [self] that [generate] reads.  [vae_stride] and
    [patch_size] come from the configuration object. *)
Record wan_i2v : Type := {
  rank : Z;
  t5_cpu : bool;
  vae_stride : positive * positive * positive;
  patch_size : positive * positive * positive;
  sample_neg_prompt : string;
  clip_image_size : Z
}.

Record gen_args : Type := {
  input_prompt : string;
  img : image;
  img2 : option image;
  max_area : Z;
  frame_num : Z;
  shift : Qc;
  sample_solver : string;
  sampling_steps : Z;
  guide_scale : Qc;
  n_prompt : string;
  seed : Z;
  offload_model : bool;
  callback : bool;               (* [callback != None] *)
  enable_RIFLEx : bool;
  VAE_tile_size : Z;
  joint_pass : bool;
  slg_layers : option (list nat);
  slg_start : Qc;
  slg_end : Qc;
  cfg_star_switch : bool;
  cfg_zero_step : Z;
  add_frames_for_end_image : bool
}.

Definition stride_t (self : wan_i2v) : Z := Zpos (fst (fst (vae_stride self))).
Definition stride_h (self : wan_i2v) : Z := Zpos (snd (fst (vae_stride self))).
Definition stride_w (self : wan_i2v) : Z := Zpos (snd (vae_stride self)).
Definition patch_h (self : wan_i2v) : Z := Zpos (snd (fst (patch_size self))).
Definition patch_w (self : wan_i2v) : Z := Zpos (snd (patch_size self)).

Definition sys_maxsize : Z := 2 ^ 63 - 1.

(** ** Frame and latent arithmetic (lines 194-212) *)

Definition any_end_frame (a : gen_args) : bool :=
  match img2 a with Some _ => true | None => false end.

(** [any_end_frame and add_frames_for_end_image] *)
Definition end_frame_added (a : gen_args) : bool :=
  any_end_frame a && add_frames_for_end_image a.

(** [frame_num] as the mask, the noise and the encoder input see it. *)
Definition frame_num_used (a : gen_args) : Z :=
  if end_frame_added a then frame_num a + 1 else frame_num a.

Definition lat_frames (self : wan_i2v) (a : gen_args) : Z :=
  if end_frame_added a then
    (frame_num_used a - 2) / stride_t self + 2
  else
    (frame_num a - 1) / stride_t self + 1.

(** [round(np.sqrt(max_area * aspect_ratio) // stride // patch * patch)] in
    exact arithmetic: the floor of a square root is the integer square root
    of the floor.  A negative [max_area] makes the square root NaN, which
    [round] rejects. *)
Definition lat_h (self : wan_i2v) (a : gen_args) : Z :=
  let h := Zpos (img_h (img a)) in
  let w := Zpos (img_w (img a)) in
  Z.sqrt (max_area a * h / w) / stride_h self / patch_h self * patch_h self.

Definition lat_w (self : wan_i2v) (a : gen_args) : Z :=
  let h := Zpos (img_h (img a)) in
  let w := Zpos (img_w (img a)) in
  Z.sqrt (max_area a * w / h) / stride_w self / patch_w self * patch_w self.

Definition noise_shape (self : wan_i2v) (a : gen_args) : Z * Z * Z * Z :=
  (16, lat_frames self a, lat_h self a, lat_w self a).

(** ** [WanI2V.generate] *)

Section Generate.

Context {W G : Type} (c : collab W G).

Local Open Scope run_scope.

(** An opaque external call: logged, and the world moves on. *)
Definition do_ext (e : event) : M W unit :=
  fun w => (Ok tt, ext c e w, [e]).

(** lines 225-228 *)
Definition draw_seed (seed0 : Z) : M W Z :=
  if seed0 >=? 0 then ret seed0
  else fun w =>
    let '(s, w') := randint c w in (Ok s, w', [EvRandInt s]).

Definition initial_noise (seed0 : Z) (shape : Z * Z * Z * Z)
  : M W (tensor * G) :=
  s <- draw_seed seed0 ;;
  let seed_g := manual_seed c s in
  let '(_, lf, _, _) := shape in
  if lf <? 0 then raise RuntimeError
  else
    emit (EvRandn s shape) ;;;
    ret (randn c seed_g shape).

(** lines 230-242 *)
Definition conditioning_mask (self : wan_i2v) (a : gen_args)
  : M W Mask.mask :=
  if frame_num_used a <? 0 then raise RuntimeError
  else
    emit (EvOnes (frame_num_used a) (lat_h self a) (lat_w self a)) ;;;
    lift_sum (Mask.build_mask (frame_num_used a) (any_end_frame a)
                (add_frames_for_end_image a)
                (Z.to_nat (lat_h self a)) (Z.to_nat (lat_w self a))).

(** lines 244-283 *)
Definition encode_conditioning (self : wan_i2v) (a : gen_args) : M W unit :=
  let n_prompt' :=
    if String.eqb (n_prompt a) EmptyString then sample_neg_prompt self
    else n_prompt a in
  do_ext (EvTextEncoder (input_prompt a)) ;;;
  do_ext (EvTextEncoder n_prompt') ;;;
  when (negb (t5_cpu self) && offload_model a) (do_ext EvTextEncoderCpu) ;;;
  do_ext EvClipVisual ;;;
  when (offload_model a) (do_ext EvClipCpu) ;;;
  do_ext EvUnloadAll ;;;
  let h := lat_h self a * stride_h self in
  let w := lat_w self a * stride_w self in
  let filler :=
    if any_end_frame a then frame_num_used a - 2 else frame_num_used a - 1 in
  if filler <? 0 then raise RuntimeError
  else
    emit (EvEncAlloc filler h w) ;;;
    do_ext (EvVaeEncode (end_frame_added a)).

(** lines 293-312 *)
Definition select_solver (a : gen_args) : M W (list Qc) :=
  if String.eqb (sample_solver a) "unipc" then
    fun w =>
      let '(ts, w') := unipc_timesteps c (sampling_steps a) (shift a) w in
      (Ok ts, w', [EvSetTimesteps "unipc"])
  else if String.eqb (sample_solver a) "dpm++" then
    fun w =>
      let '(ts, w') := dpm_timesteps c (sampling_steps a) (shift a) w in
      (Ok ts, w', [EvSetTimesteps "dpm++"])
  else raise NotImplementedError.

(** What the sampling loop needs from the lines before it. *)
Record prepared : Type := {
  p_noise : tensor;
  p_seed_g : G;
  p_msk : Mask.mask;
  p_timesteps : list Qc
}.

(** lines 193-283: the tensors built before the solver is chosen *)
Definition allocate (self : wan_i2v) (a : gen_args)
  : M W (tensor * G * Mask.mask) :=
  emit EvToTensor ;;;
  when (any_end_frame a) (emit EvToTensor) ;;;
  (if max_area a <? 0 then raise ValueError else ret tt) ;;;
  let h := lat_h self a * stride_h self in
  let w := lat_w self a * stride_w self in
  do_ext (EvResize h w) ;;;
  do_ext (EvResize (clip_image_size self) (clip_image_size self)) ;;;
  when (any_end_frame a)
    (do_ext (EvResize h w) ;;;
     do_ext (EvResize (clip_image_size self) (clip_image_size self))) ;;;
  ng <- initial_noise (seed a) (noise_shape self a) ;;
  msk <- conditioning_mask self a ;;
  encode_conditioning self a ;;;
  ret (ng, msk).

(** lines 193-355 *)
Definition prepare (self : wan_i2v) (a : gen_args) : M W prepared :=
  ngm <- allocate self a ;;
  timesteps <- select_solver a ;;
  do_ext EvRotaryPosEmbed ;;;
  when (offload_model a) (do_ext EvEmptyCache) ;;;
  teacache <- (fun w => (Ok (enable_teacache c w), w, [])) ;;
  when teacache (do_ext EvTeacacheThreshold) ;;;
  when (callback a) (do_ext (EvCallback (-1) true)) ;;;
  ret {| p_noise := fst (fst ngm); p_seed_g := snd (fst ngm);
         p_msk := snd ngm; p_timesteps := timesteps |}.

(** [if self._interrupt:] after a forward evaluation of step [i] *)
Definition poll (i : nat) : M W bool :=
  fun w => (Ok (interrupt c w), w, [EvPoll i (interrupt c w)]).

(** lines 367-393: [None] stands for the [return None] of a set flag. *)
Definition forward_pass (a : gen_args) (msk : Mask.mask) (i : nat) (t : Qc)
    (slg : option (list nat)) (latent : tensor)
  : M W (option (tensor * tensor)) :=
  if joint_pass a then
    cu <- (fun w =>
             let '(cu, w') := forward_joint c msk latent t i slg w in
             (Ok cu, w', [EvForward FwdJoint i slg])) ;;
    stop <- poll i ;;
    if stop then ret None else ret (Some cu)
  else
    cond <- (fun w =>
               let '(p, w') := forward_cond c msk latent t i w in
               (Ok p, w', [EvForward FwdCond i None])) ;;
    stop <- poll i ;;
    if stop then ret None
    else
      when (offload_model a) (do_ext EvEmptyCache) ;;;
      uncond <- (fun w =>
                   let '(n, w') := forward_uncond c msk latent t i slg w in
                   (Ok n, w', [EvForward FwdUncond i slg])) ;;
      stop <- poll i ;;
      if stop then ret None else ret (Some (cond, uncond)).

(** One iteration of the loop (lines 358-429). *)
Definition loop_body (a : gen_args) (msk : Mask.mask) (i : nat) (t : Qc)
    (latent : tensor) (seed_g : G) : M W (option (tensor * G)) :=
  do_ext (EvSetStepNo i) ;;;
  let slg := slg_layers_local (slg_layers a) (slg_start a) (slg_end a)
               (sampling_steps a) i in
  preds <- forward_pass a msk i t slg latent ;;
  match preds with
  | None => ret None
  | Some (noise_pred_cond, noise_pred_uncond0) =>
      when (offload_model a) (do_ext EvEmptyCache) ;;;
      guided <- lift_sum (guidance (cfg_star_switch a) (cfg_zero_step a)
                            (guide_scale a) i
                            noise_pred_cond noise_pred_uncond0) ;;
      next <- (fun w =>
                 let '(lg, w') := sched_step c guided t latent seed_g w in
                 (Ok lg, w', [EvSolverStep i guided])) ;;
      when (callback a) (do_ext (EvCallback (Z.of_nat i) false)) ;;;
      ret (Some next)
  end.

(** [for i, t in enumerate(tqdm(timesteps))] from index [i] on. *)
Fixpoint sampling_loop (a : gen_args) (msk : Mask.mask) (i : nat)
    (timesteps : list Qc) (latent : tensor) (seed_g : G)
  : M W (option tensor) :=
  match timesteps with
  | [] => ret (Some latent)
  | t :: rest =>
      r <- loop_body a msk i t latent seed_g ;;
      match r with
      | None => ret None
      | Some (latent', seed_g') =>
          sampling_loop a msk (S i) rest latent' seed_g'
      end
  end.

(** [video[:, :-1]] *)
Definition trim_last_frame (v : video) : video :=
  map (PySlice.slice None (Some (-1))) v.

(** lines 432-457 *)
Definition finish (self : wan_i2v) (a : gen_args) (latent : tensor)
  : M W (option video) :=
  when (offload_model a) (do_ext EvModelCpu ;;; do_ext EvEmptyCache) ;;;
  video <-
    (if rank self =? 0 then
       v <- (fun w =>
               let '(v, w') :=
                 vae_decode c latent (VAE_tile_size a) (end_frame_added a) w in
               (Ok v, w', [EvVaeDecode (end_frame_added a)])) ;;
       if end_frame_added a then ret (Some (trim_last_frame v))
       else ret (Some v)
     else ret None) ;;
  when (offload_model a) (do_ext EvGcCollect) ;;;
  initialized <- (fun w => (Ok (dist_initialized c w), w, [])) ;;
  when initialized (do_ext EvBarrier) ;;;
  ret video.

(** The value is what Python's caller receives: [Some v] a video, [None] the
    no-result [None]. *)
Definition generate (self : wan_i2v) (a : gen_args) : M W (option video) :=
  p <- prepare self a ;;
  out <- sampling_loop a (p_msk p) 0 (p_timesteps p) (p_noise p)
           (p_seed_g p) ;;
  match out with
  | None => ret None
  | Some latent => finish self a latent
  end.

End Generate.

(** ** The window as the specification words it *)

Definition floor_window (start_frac end_frac : Qc) (S : Z) (i : nat) : bool :=
  (Qfloor (start_frac * inject_Z S)%Q <=? Z.of_nat i)
  && (Z.of_nat i <? Qfloor (end_frac * inject_Z S)%Q).

(** ** The rescaling factor as the specification words it *)

Definition dot (p n : row) : Qc := row_sum (row_map2 Qcmult p n).
Definition norm_sq (n : row) : Qc := row_sum (map (fun x => (x * x)%Qc) n).
Definition alpha_spec (p n : row) : Qc := (dot p n / (norm_sq n + eps))%Qc.

(** ** A small concrete environment, to run the model on

    The world counts the forward evaluations made so far; the flag is seen
    set from the [cancel_after]-th evaluation on. *)

Module Demo.

Record world : Type := {
  evaluations : nat;
  cancel_after : option nat;
  next_random : Z
}.

Definition tick (w : world) : world :=
  {| evaluations := S (evaluations w);
     cancel_after := cancel_after w;
     next_random := next_random w |}.

Definition filled (x : Qc) (shape : Z * Z * Z * Z) : tensor :=
  let '(b, f, h, w) := shape in
  repeat (repeat x (Z.to_nat (f * h * w))) (Z.to_nat b).

Definition countdown (steps : Z) : list Qc :=
  map (fun k => Qc_of_Z (Z.of_nat k)) (rev (seq 1 (Z.to_nat steps))).

Definition env : collab world Z := {|
  ext := fun _ w => w;
  randint := fun w =>
    (next_random w,
     {| evaluations := evaluations w; cancel_after := cancel_after w;
        next_random := next_random w + 1 |});
  manual_seed := fun s => s;
  randn := fun g shape => (filled (Qc_of_Z g) shape, g + 1);
  unipc_timesteps := fun steps _ w => (countdown steps, w);
  dpm_timesteps := fun steps _ w => (countdown steps, w);
  enable_teacache := fun _ => false;
  forward_joint := fun _ latent _ _ _ w =>
    ((latent, map (map (fun _ => 0%Qc)) latent), tick w);
  forward_cond := fun _ latent _ _ w => (latent, tick w);
  forward_uncond := fun _ latent _ _ _ w =>
    (map (map (fun _ => 0%Qc)) latent, tick w);
  interrupt := fun w =>
    match cancel_after w with
    | Some k => Nat.leb k (evaluations w)
    | None => false
    end;
  sched_step := fun guided _ latent g w => ((sub latent guided, g), w);
  vae_decode := fun latent _ _ w =>
    (map (fun r => map (fun x => [[x]]) r) latent, w);
  dist_initialized := fun _ => false
|}.

Definition start (cancel : option nat) : world :=
  {| evaluations := 0; cancel_after := cancel; next_random := 42 |}.

Definition pipeline (r : Z) : wan_i2v := {|
  rank := r;
  t5_cpu := false;
  vae_stride := (4, 8, 8)%positive;
  patch_size := (1, 2, 2)%positive;
  sample_neg_prompt := "blurry";
  clip_image_size := 224
|}.

Definition picture : image := {| img_h := 16; img_w := 16 |}.

(** A call on a 16x16 picture with [max_area = 256], hence a 2x2 latent. *)
Definition call (solver : string) (end_image : option image) (frames : Z)
    (steps : Z) (seed0 : Z) (add_frames : bool) : gen_args := {|
  input_prompt := "a cat";
  img := picture;
  img2 := end_image;
  max_area := 256;
  frame_num := frames;
  shift := Qc_of_Z 5;
  sample_solver := solver;
  sampling_steps := steps;
  guide_scale := Qc_of_Z 5;
  n_prompt := "";
  seed := seed0;
  offload_model := true;
  callback := true;
  enable_RIFLEx := false;
  VAE_tile_size := 0;
  joint_pass := false;
  slg_layers := Some [9%nat];
  slg_start := Qc_of_Z 0;
  slg_end := Q2Qc (1 # 2);
  cfg_star_switch := true;
  cfg_zero_step := 0;
  add_frames_for_end_image := add_frames
|}.

End Demo.

(** ** Trace invariants

    [emits P m]: in every world, each event [m] emits satisfies [P]. *)

Definition emits {W A : Type} (P : event -> Prop) (m : M W A) : Prop :=
  forall w, Forall P (trace_of (m w)).

(** The events of lines 193-283, with what they carry. *)
Definition allocate_event (self : wan_i2v) (a : gen_args) (e : event) : Prop :=
  match e with
  | EvToTensor | EvResize _ _ | EvTextEncoder _ | EvTextEncoderCpu
  | EvClipVisual | EvClipCpu | EvUnloadAll | EvEncAlloc _ _ _
  | EvVaeEncode _ => True
  | EvRandInt _ => seed a < 0
  | EvRandn s shape =>
      shape = noise_shape self a /\ (0 <= seed a -> s = seed a)
  | EvOnes f h w =>
      f = frame_num_used a /\ h = lat_h self a /\ w = lat_w self a
  | _ => False
  end.

(** The events of lines 193-355. *)
Definition prepare_event (self : wan_i2v) (a : gen_args) (e : event) : Prop :=
  allocate_event self a e
  \/ match e with
     | EvSetTimesteps _ | EvRotaryPosEmbed | EvEmptyCache
     | EvTeacacheThreshold => True
     | EvCallback i b => i = -1 /\ b = true
     | _ => False
     end.

(** The events of iteration [i] of the loop. *)
Definition body_event (a : gen_args) (i : nat) (e : event) : Prop :=
  match e with
  | EvSetStepNo j | EvPoll j _ | EvSolverStep j _ => j = i
  | EvForward k j slg =>
      j = i
      /\ slg = match k with
               | FwdCond => None
               | _ => slg_layers_local (slg_layers a) (slg_start a)
                        (slg_end a) (sampling_steps a) i
               end
  | EvCallback j b => j = Z.of_nat i /\ b = false
  | EvEmptyCache => True
  | _ => False
  end.

(** The events of the iterations from [lo] on. *)
Definition loop_event (a : gen_args) (lo : nat) (e : event) : Prop :=
  exists i, (lo <= i)%nat /\ body_event a i e.

(** The events of lines 432-455. *)
Definition finish_event (self : wan_i2v) (a : gen_args) (e : event) : Prop :=
  match e with
  | EvModelCpu | EvEmptyCache | EvGcCollect | EvBarrier => True
  | EvVaeDecode b => rank self = 0 /\ b = end_frame_added a
  | _ => False
  end.

(** The ways a call of [generate] can go. *)
Inductive generate_run {W G : Type} (c : collab W G) (self : wan_i2v)
    (a : gen_args) (w : W) : Prop :=
| RunPrepareRaised (e : exn) (w1 : W) (t1 : list event)
    (Hprep : prepare c self a w = (Raise e, w1, t1))
    (Hgen : generate c self a w = (Raise e, w1, t1))
| RunLoopRaised (p : prepared) (w1 : W) (t1 : list event)
    (e : exn) (w2 : W) (t2 : list event)
    (Hprep : prepare c self a w = (Ok p, w1, t1))
    (Hloop : sampling_loop c a (p_msk p) 0 (p_timesteps p) (p_noise p)
               (p_seed_g p) w1 = (Raise e, w2, t2))
    (Hgen : generate c self a w = (Raise e, w2, t1 ++ t2))
| RunCancelled (p : prepared) (w1 : W) (t1 : list event)
    (w2 : W) (t2 : list event)
    (Hprep : prepare c self a w = (Ok p, w1, t1))
    (Hloop : sampling_loop c a (p_msk p) 0 (p_timesteps p) (p_noise p)
               (p_seed_g p) w1 = (Ok None, w2, t2))
    (Hgen : generate c self a w = (Ok None, w2, t1 ++ t2))
| RunFinished (p : prepared) (w1 : W) (t1 : list event)
    (latent : tensor) (w2 : W) (t2 : list event)
    (r : result (option video)) (w3 : W) (t3 : list event)
    (Hprep : prepare c self a w = (Ok p, w1, t1))
    (Hloop : sampling_loop c a (p_msk p) 0 (p_timesteps p) (p_noise p)
               (p_seed_g p) w1 = (Ok (Some latent), w2, t2))
    (Hfin : finish c self a latent w2 = (r, w3, t3))
    (Hgen : generate c self a w = (r, w3, t1 ++ t2 ++ t3)).

(** ** Reading a trace *)

(** The step indices of the solver steps, in order. *)
Definition solver_steps (t : list event) : list nat :=
  flat_map (fun e => match e with EvSolverStep i _ => [i] | _ => [] end) t.

(** The progress callbacks, in order. *)
Definition callbacks (t : list event) : list (Z * bool) :=
  flat_map (fun e => match e with EvCallback i b => [(i, b)] | _ => [] end) t.

(** Every forward evaluation is directly followed by a poll of the flag in
    the same step, and the flag is polled nowhere else. *)
Fixpoint polled_after_forward (t : list event) : bool :=
  match t with
  | [] => true
  | EvForward _ i _ :: rest =>
      match rest with
      | EvPoll j _ :: rest' => Nat.eqb i j && polled_after_forward rest'
      | _ => false
      end
  | EvPoll _ _ :: _ => false
  | _ :: rest => polled_after_forward rest
  end.

(** The callbacks made after the steps [steps], when a callback is given. *)
Definition step_callbacks (a : gen_args) (steps : list nat)
  : list (Z * bool) :=
  if callback a then map (fun j => (Z.of_nat j, false)) steps else [].



(** What lines 432-455 do after the loop. *)
Definition is_wrap_up (e : event) : bool :=
  match e with
  | EvModelCpu | EvVaeDecode _ | EvGcCollect | EvBarrier => true
  | _ => false
  end.

(** The negative prompt that is encoded (lines 244-245). *)
Definition negative_prompt (self : wan_i2v) (a : gen_args) : string :=
  if String.eqb (n_prompt a) EmptyString then sample_neg_prompt self
  else n_prompt a.

(** How the arguments of the call show in its events. *)
Definition configured_event (self : wan_i2v) (a : gen_args) (e : event)
  : Prop :=
  match e with
  | EvEmptyCache | EvClipCpu | EvModelCpu | EvGcCollect =>
      offload_model a = true
  | EvTextEncoderCpu => offload_model a = true /\ t5_cpu self = false
  | EvCallback _ _ => callback a = true
  | EvTextEncoder s => s = input_prompt a \/ s = negative_prompt self a
  | EvForward k _ _ =>
      match k with
      | FwdJoint => joint_pass a = true
      | FwdCond | FwdUncond => joint_pass a = false
      end
  | EvVaeEncode b => b = end_frame_added a
  | EvVaeDecode b => b = end_frame_added a /\ rank self = 0
  | EvSetTimesteps s =>
      s = sample_solver a /\ (s = "unipc"%string \/ s = "dpm++"%string)
  | EvResize h w =>
      (h = lat_h self a * stride_h self /\ w = lat_w self a * stride_w self)
      \/ (h = clip_image_size self /\ w = clip_image_size self)
  | EvEncAlloc f h w =>
      f = frame_num_used a - (if any_end_frame a then 2 else 1) /\ 0 <= f
      /\ h = lat_h self a * stride_h self /\ w = lat_w self a * stride_w self
  | _ => True
  end.





(** * Properties *)

(** ** Tensor algebra *)

Lemma same_len_true {A B : Type} (a : list A) (b : list B) :
  same_len a b = true <-> List.length a = List.length b.
Proof. unfold same_len. apply Nat.eqb_eq. Qed.

Lemma same_shape_cons (p n : row) (P N : tensor) :
  same_shape (p :: P) (n :: N) = true <->
  List.length p = List.length n /\ same_shape P N = true.
Proof.
  unfold same_shape, same_len; simpl.
  rewrite !andb_true_iff, !Nat.eqb_eq. intuition lia.
Qed.

Lemma same_shape_nil_l (N : tensor) : same_shape [] N = true -> N = [].
Proof.
  destruct N; [reflexivity|]. unfold same_shape, same_len; simpl. discriminate.
Qed.

Lemma same_shape_nil_r (P : tensor) : same_shape P [] = true -> P = [].
Proof.
  destruct P; [reflexivity|]. unfold same_shape, same_len; simpl. discriminate.
Qed.

(** Adding [g * (p - 0)] to a zero row leaves [g * p]. *)
Lemma row_guided_zero (g : Qc) (p n : row) :
  List.length p = List.length n -> Forall (fun x => x = 0%Qc) n ->
  row_map2 Qcplus n (map (Qcmult g) (row_map2 Qcminus p n)) = map (Qcmult g) p.
Proof.
  revert n. induction p as [|x p IH]; intros [|y n] Hlen Hz;
    simpl in Hlen; try discriminate; [reflexivity|].
  inversion Hz as [|? ? Hy Hn]; subst.
  unfold row_map2 in *; simpl. f_equal.
  - ring.
  - apply IH; [lia | assumption].
Qed.

Lemma guided_zero (g : Qc) (P N : tensor) :
  same_shape P N = true -> is_zero N ->
  add N (scale g (sub P N)) = scale g P.
Proof.
  revert N. induction P as [|p P IH]; intros N Hs Hz.
  - apply same_shape_nil_l in Hs; subst. reflexivity.
  - destruct N as [|n N]; [apply same_shape_nil_r in Hs; discriminate|].
    apply same_shape_cons in Hs as [Hlen Hs].
    inversion Hz as [|? ? Hn HN]; subst.
    unfold add, sub, scale, map2 in *; simpl. f_equal.
    + apply row_guided_zero; assumption.
    + apply IH; assumption.
Qed.

(** ** C1: the early-step branch of the guidance arithmetic *)




(** ** C5: the rescaling factor *)

Lemma optimized_scale_rows (P N : tensor) :
  optimized_scale P N
  = map (fun pn => alpha_spec (fst pn) (snd pn)) (combine P N).
Proof.
  unfold optimized_scale, sum_dim1, mul, square, map2.
  revert N. induction P as [|p P IH]; intros [|n N]; simpl; try reflexivity.
  f_equal. apply IH.
Qed.

Lemma Qc_square_nonneg (x : Qc) : (0 <= x * x)%Qc.
Proof.
  unfold Qcle. change (this (x * x)%Qc) with (Qred (x * x)).
  rewrite Qred_correct. change (this 0%Qc) with 0%Q.
  destruct (Qlt_le_dec x 0) as [Hneg|Hpos].
  - setoid_replace (x * x)%Q with ((- x) * (- x))%Q by ring.
    assert (0 <= - x)%Q.
    { apply Qlt_le_weak in Hneg. apply Qopp_le_compat in Hneg. exact Hneg. }
    apply Qmult_le_0_compat; assumption.
  - apply Qmult_le_0_compat; assumption.
Qed.

Lemma norm_sq_nonneg (n : row) : (0 <= norm_sq n)%Qc.
Proof.
  unfold norm_sq, row_sum. induction n as [|x n IH]; simpl.
  - apply Qcle_refl.
  - replace 0%Qc with (0 + 0)%Qc by ring.
    apply Qcplus_le_compat; [apply Qc_square_nonneg | exact IH].
Qed.

Lemma denominator_positive (n : row) : (0 < norm_sq n + eps)%Qc.
Proof.
  apply Qclt_le_trans with (y := eps); [reflexivity|].
  replace eps with (0 + eps)%Qc at 1 by ring.
  apply Qcplus_le_compat; [apply norm_sq_nonneg | apply Qcle_refl].
Qed.

Lemma mul_rows_zero (N : tensor) (alpha : list Qc) :
  List.length N = List.length alpha -> is_zero N ->
  is_zero (mul_rows N alpha)
  /\ forall P, same_shape P N = true ->
               same_shape P (mul_rows N alpha) = true.
Proof.
  unfold mul_rows. revert alpha.
  induction N as [|n N IH]; intros [|a alpha] Hlen Hz; simpl in Hlen;
    try discriminate.
  - split; [constructor | intros P HP; exact HP].
  - inversion Hz as [|? ? Hn HN]; subst.
    destruct (IH alpha) as [IHz IHs]; [lia | assumption |].
    split.
    + simpl. constructor; [|exact IHz].
      clear - Hn. induction Hn as [|x n Hx Hn IHn]; simpl; constructor.
      * subst. ring.
      * exact IHn.
    + intros [|p P] HP; [apply same_shape_nil_l in HP; discriminate|].
      apply same_shape_cons in HP as [Hl HP].
      simpl. apply same_shape_cons. split.
      * rewrite length_map. exact Hl.
      * apply IHs. exact HP.
Qed.

Lemma same_shape_length (P N : tensor) :
  same_shape P N = true -> List.length P = List.length N.
Proof.
  unfold same_shape. intro H. apply andb_true_iff in H as [H _].
  apply same_len_true. exact H.
Qed.

(** C5: [optimized_scale] returns, for each row, the dot product of the
    conditional and unconditional rows divided by the squared norm of the
    unconditional row plus [1e-8]; that divisor is positive for every
    unconditional prediction, so [alpha] times it gives back the dot product;
    and when the unconditional prediction is zero everywhere, a step past the
    early-step threshold yields the guided prediction [guide_scale * P]. *)
Theorem rescaling_factor (cfg_zero_step : Z) (g : Qc) (i : nat)
    (P N : tensor) :
  same_shape P N = true ->
  optimized_scale P N
  = map (fun pn => alpha_spec (fst pn) (snd pn)) (combine P N)
  /\ (forall p n, (0 < norm_sq n + eps)%Qc
                  /\ (alpha_spec p n * (norm_sq n + eps) = dot p n)%Qc)
  /\ (is_zero N -> cfg_zero_step < Z.of_nat i ->
      guidance true cfg_zero_step g i P N = inr (scale g P)).
Proof.
  intro Hs. split; [apply optimized_scale_rows|]. split.
  - intros p n. pose proof (denominator_positive n) as Hpos.
    split; [exact Hpos|].
    unfold alpha_spec. field.
    intro E. apply (Qclt_not_eq _ _ Hpos). symmetry. exact E.
  - intros Hz Hi.
    assert (Hlen : List.length N = List.length (optimized_scale P N)).
    { rewrite optimized_scale_rows, length_map, length_combine.
      apply same_shape_length in Hs. lia. }
    destruct (mul_rows_zero N (optimized_scale P N) Hlen Hz) as [Hz' Hs'].
    unfold guidance, cfg_star_block. rewrite Hs. simpl.
    apply Z.leb_gt in Hi. rewrite Hi. simpl.
    f_equal. apply guided_zero; [apply Hs'; exact Hs | exact Hz'].
Qed.

Lemma rescaling_factor_witness :
  guidance true 0 (Qc_of_Z 5) 3 [[1%Qc; Q2Qc (1 # 2)]] [[0%Qc; 0%Qc]]
  = inr (scale (Qc_of_Z 5) [[1%Qc; Q2Qc (1 # 2)]]).
Proof.
  apply (rescaling_factor 0 (Qc_of_Z 5) 3
           [[1%Qc; Q2Qc (1 # 2)]] [[0%Qc; 0%Qc]]).
  - reflexivity.
  - repeat constructor.
  - simpl. lia.
Defined.

(** ** C6: the selective-layer window *)

Lemma quot_vs_div (n : Z) (d : positive) (i : Z) :
  0 <= i ->
  (Z.quot n (Zpos d) <=? i) = (n / Zpos d <=? i)
  /\ (i <? Z.quot n (Zpos d)) = (i <? n / Zpos d).
Proof.
  intro Hi. destruct (Z_lt_le_dec n 0) as [Hneg|Hpos].
  - assert (Hq : Z.quot n (Zpos d) <= 0).
    { replace n with (- (- n)) by lia. rewrite Z.quot_opp_l by lia.
      pose proof (Z.quot_pos (- n) (Zpos d)). lia. }
    assert (Hd : n / Zpos d < 0) by (apply Z.div_lt_upper_bound; lia).
    split.
    + transitivity true; [apply Z.leb_le | symmetry; apply Z.leb_le]; lia.
    + transitivity false; [apply Z.ltb_ge | symmetry; apply Z.ltb_ge]; lia.
  - rewrite Z.quot_div_nonneg by lia. split; reflexivity.
Qed.

Lemma py_int_product (x : Qc) (S : Z) (i : nat) :
  (py_int (x * Qc_of_Z S) <=? Z.of_nat i)
  = (Qfloor (x * inject_Z S)%Q <=? Z.of_nat i)
  /\ (Z.of_nat i <? py_int (x * Qc_of_Z S))
     = (Z.of_nat i <? Qfloor (x * inject_Z S)%Q).
Proof.
  assert (E : Qfloor (this (x * Qc_of_Z S)%Qc) = Qfloor (x * inject_Z S)%Q).
  { apply Qfloor_comp. unfold Qc_of_Z.
    change (this (x * Q2Qc (inject_Z S))%Qc)
      with (Qred (x * Qred (inject_Z S))).
    rewrite !Qred_correct. reflexivity. }
  rewrite <- E. unfold py_int.
  destruct (this (x * Qc_of_Z S)%Qc) as [n d]. simpl.
  apply quot_vs_div. lia.
Qed.

Lemma in_slg_window_floor (a b : Qc) (S : Z) (i : nat) :
  in_slg_window a b S i = floor_window a b S i.
Proof.
  unfold in_slg_window, floor_window.
  destruct (py_int_product a S i) as [-> _].
  destruct (py_int_product b S i) as [_ ->]. reflexivity.
Qed.

(** ** Reasoning about runs *)

Section RunLemmas.

Context {W : Type}.

Lemma emits_ret {A : Type} (P : event -> Prop) (x : A) :
  emits P (ret x : M W A).
Proof. intro w. constructor. Qed.

Lemma emits_raise {A : Type} (P : event -> Prop) (e : exn) :
  emits P (raise e : M W A).
Proof. intro w. constructor. Qed.

Lemma emits_emit (P : event -> Prop) (e : event) :
  P e -> emits P (emit e : M W unit).
Proof. intros H w. repeat constructor. exact H. Qed.

Lemma emits_lift_sum {A : Type} (P : event -> Prop) (s : exn + A) :
  emits P (lift_sum s : M W A).
Proof. destruct s; [apply emits_raise | apply emits_ret]. Qed.

Lemma emits_when (P : event -> Prop) (b : bool) (m : M W unit) :
  emits P m -> emits P (when b m).
Proof. intro H. destruct b; [exact H | apply emits_ret]. Qed.

Lemma emits_bind {A B : Type} (P : event -> Prop) (m : M W A)
    (f : A -> M W B) :
  emits P m -> (forall x, emits P (f x)) -> emits P (bind m f).
Proof.
  intros Hm Hf w. unfold bind. specialize (Hm w).
  destruct (m w) as [[[x|e] w1] t1]; unfold trace_of in *; simpl in *.
  - specialize (Hf x w1). destruct (f x w1) as [[r w2] t2]; simpl in *.
    apply Forall_app. split; assumption.
  - exact Hm.
Qed.

Lemma emits_weaken {A : Type} (P Q : event -> Prop) (m : M W A) :
  (forall e, P e -> Q e) -> emits P m -> emits Q m.
Proof.
  intros H Hm w. eapply Forall_impl; [exact H | apply Hm].
Qed.

(** A run of [bind m f] is a run of [m] followed, unless it raised, by a run
    of [f]. *)
Lemma bind_run {A B : Type} (m : M W A) (f : A -> M W B) (w : W) :
  (exists x w1 t1,
      m w = (Ok x, w1, t1)
      /\ bind m f w
         = (result_of (f x w1), world_of (f x w1), t1 ++ trace_of (f x w1)))
  \/ (exists e w1 t1,
         m w = (Raise e, w1, t1) /\ bind m f w = (Raise e, w1, t1)).
Proof.
  unfold bind. destruct (m w) as [[[x|e] w1] t1].
  - left. exists x, w1, t1. split; [reflexivity|].
    destruct (f x w1) as [[r w2] t2]. reflexivity.
  - right. exists e, w1, t1. split; reflexivity.
Qed.

End RunLemmas.

Ltac emits_step :=
  first
    [ apply emits_ret
    | apply emits_raise
    | apply emits_lift_sum
    | apply emits_when
    | apply emits_bind; [|intros ?]
    | apply emits_emit
    | match goal with
      | |- emits _ (if ?b then _ else _) => destruct b eqn:?
      | |- emits _ (match ?x with _ => _ end) => destruct x eqn:?
      end ].

Section GenerateLemmas.

Context {W G : Type} (c : collab W G).

Lemma emits_do_ext (P : event -> Prop) (e : event) :
  P e -> emits P (do_ext c e).
Proof. intros H w. repeat constructor. exact H. Qed.

Lemma initial_noise_emits (self : wan_i2v) (a : gen_args) :
  emits (allocate_event self a)
    (initial_noise c (seed a) (noise_shape self a)).
Proof.
  intro w. unfold initial_noise, draw_seed, noise_shape, bind, trace_of.
  destruct (seed a >=? 0) eqn:Hseed.
  - simpl. destruct (lat_frames self a <? 0); simpl; repeat constructor.
  - rewrite Z.geb_leb in Hseed. apply Z.leb_gt in Hseed.
    destruct (randint c w) as [s w1].
    destruct (lat_frames self a <? 0); simpl; repeat constructor;
      solve [exact Hseed | lia].
Qed.

Lemma select_solver_emits (P : event -> Prop) (a : gen_args) :
  (forall s, P (EvSetTimesteps s)) -> emits P (select_solver c a).
Proof.
  intros HP w. unfold select_solver, trace_of.
  destruct (String.eqb (sample_solver a) "unipc").
  - destruct (unipc_timesteps c _ _ w). simpl. repeat constructor. apply HP.
  - destruct (String.eqb (sample_solver a) "dpm++").
    + destruct (dpm_timesteps c _ _ w). simpl. repeat constructor. apply HP.
    + constructor.
Qed.

Lemma emits_silent {A : Type} (P : event -> Prop) (f : W -> A) :
  emits P (fun w => (Ok (f w), w, [])).
Proof. intro w. constructor. Qed.

Lemma allocate_emits (self : wan_i2v) (a : gen_args) :
  emits (allocate_event self a) (allocate c self a).
Proof.
  unfold allocate, conditioning_mask, encode_conditioning.
  repeat (first [ apply initial_noise_emits
                | emits_step
                | apply emits_do_ext ]);
    try exact I; try (simpl; auto; fail).
Qed.

Lemma prepare_emits (self : wan_i2v) (a : gen_args) :
  emits (prepare_event self a) (prepare c self a).
Proof.
  unfold prepare. apply emits_bind.
  - apply emits_weaken with (P := allocate_event self a);
      [|apply allocate_emits].
    intros e He. left. exact He.
  - intros ngm.
    repeat (first [ apply select_solver_emits; intros ?
                  | apply emits_silent
                  | emits_step
                  | apply emits_do_ext ]);
      right; try exact I; try (simpl; auto; fail).
Qed.

Lemma forward_pass_emits (a : gen_args) (msk : Mask.mask) (i : nat) (t : Qc)
    (latent : tensor) :
  emits (body_event a i)
    (forward_pass c a msk i t
       (slg_layers_local (slg_layers a) (slg_start a) (slg_end a)
          (sampling_steps a) i) latent).
Proof.
  intro w. unfold forward_pass, bind, poll, when, do_ext, ret, trace_of.
  destruct (joint_pass a).
  - destruct (forward_joint c _ _ _ _ _ w) as [cu w1].
    destruct (interrupt c w1); simpl; repeat constructor.
  - destruct (forward_cond c _ _ _ _ w) as [p w1].
    destruct (interrupt c w1); simpl; [repeat constructor|].
    destruct (offload_model a); simpl;
      match goal with
      | |- context [forward_uncond c ?m ?l ?t ?i ?s ?w] =>
          destruct (forward_uncond c m l t i s w) as [n w2]
      end;
      destruct (interrupt c w2); simpl; repeat constructor.
Qed.

Lemma sched_step_emits (a : gen_args) (i : nat) (guided : tensor) (t : Qc)
    (latent : tensor) (g : G) :
  emits (body_event a i)
    (fun w =>
       let '(lg, w') := sched_step c guided t latent g w in
       (Ok lg, w', [EvSolverStep i guided])).
Proof.
  intro w. unfold trace_of. destruct (sched_step c _ _ _ _ w).
  simpl. repeat constructor.
Qed.

Lemma loop_body_emits (a : gen_args) (msk : Mask.mask) (i : nat) (t : Qc)
    (latent : tensor) (g : G) :
  emits (body_event a i) (loop_body c a msk i t latent g).
Proof.
  unfold loop_body.
  repeat (first [ apply forward_pass_emits
                | apply sched_step_emits
                | emits_step
                | apply emits_do_ext ]);
    try exact I; try (simpl; auto; fail).
Qed.

Lemma sampling_loop_emits (a : gen_args) (msk : Mask.mask)
    (timesteps : list Qc) :
  forall (i : nat) (latent : tensor) (g : G),
    emits (loop_event a i) (sampling_loop c a msk i timesteps latent g).
Proof.
  induction timesteps as [|t rest IH]; intros i latent g; simpl.
  - apply emits_ret.
  - apply emits_bind.
    + apply emits_weaken with (P := body_event a i);
        [|apply loop_body_emits].
      intros e He. exists i. split; [lia | exact He].
    + intros [[latent' g']|]; [|apply emits_ret].
      apply emits_weaken with (P := loop_event a (S i)); [|apply IH].
      intros e [j [Hj He]]. exists j. split; [lia | exact He].
Qed.

Lemma finish_emits (self : wan_i2v) (a : gen_args) (latent : tensor) :
  emits (finish_event self a) (finish c self a latent).
Proof.
  unfold finish.
  apply emits_bind; [repeat (first [emits_step | apply emits_do_ext]);
                     exact I|].
  intros _. apply emits_bind.
  - destruct (rank self =? 0) eqn:Hrank; [|apply emits_ret].
    apply Z.eqb_eq in Hrank. apply emits_bind.
    + intro w. unfold trace_of. destruct (vae_decode c _ _ _ w).
      simpl. repeat constructor. exact Hrank.
    + intros v. destruct (end_frame_added a); apply emits_ret.
  - intros v.
    repeat (first [ apply emits_silent | emits_step | apply emits_do_ext ]);
      exact I.
Qed.

End GenerateLemmas.



(** ** C7: cancellation *)

Section Cancellation.

Context {W G : Type} (c : collab W G).

(** A poll that sees the flag set ends the iteration with [return None],
    before the guidance arithmetic and the solver step. *)
Lemma loop_body_cancelled (a : gen_args) (msk : Mask.mask) (i : nat) (t : Qc)
    (latent : tensor) (g : G) (w : W) (k : nat) :
  In (EvPoll k true) (trace_of (loop_body c a msk i t latent g w)) ->
  result_of (loop_body c a msk i t latent g w) = Ok None
  /\ forall j p,
       ~ In (EvSolverStep j p) (trace_of (loop_body c a msk i t latent g w)).
Proof.
  unfold loop_body, forward_pass, bind, poll, when, do_ext, ret, lift_sum,
    raise, trace_of, result_of.
  destruct (joint_pass a).
  - destruct (forward_joint c _ _ _ _ _ _) as [[p n] w1].
    destruct (interrupt c w1) eqn:Hflag; simpl.
    + intros _. split; [reflexivity|].
      intros j q [H|[H|[H|[]]]]; discriminate.
    + destruct (guidance _ _ _ _ _ _) as [e|guided];
        destruct (offload_model a); simpl;
        try (destruct (sched_step c _ _ _ _ _) as [lg w2]);
        try (destruct (callback a)); simpl;
        intro H; exfalso;
        repeat (destruct H as [H|H]; [discriminate|]); exact H.
  - destruct (forward_cond c _ _ _ _ _) as [p w1].
    destruct (interrupt c w1) eqn:Hflag1; simpl.
    + intros _. split; [reflexivity|].
      intros j q [H|[H|[H|[]]]]; discriminate.
    + destruct (offload_model a); simpl;
        match goal with
        | |- context [forward_uncond c ?m ?l ?t ?i ?s ?w] =>
            destruct (forward_uncond c m l t i s w) as [n w2]
        end;
        destruct (interrupt c w2) eqn:Hflag2; simpl.
      all: try (intros _; split; [reflexivity|];
                intros j q H;
                repeat (destruct H as [H|H]; [discriminate|]); exact H).
      all: destruct (guidance _ _ _ _ _ _) as [e|guided]; simpl;
        try (destruct (sched_step c _ _ _ _ _) as [lg w3]);
        try (destruct (callback a)); simpl;
        intro H; exfalso;
        repeat (destruct H as [H|H]; [discriminate|]); exact H.
Qed.

Lemma sampling_loop_cancelled (a : gen_args) (msk : Mask.mask)
    (timesteps : list Qc) (k : nat) :
  forall (i : nat) (latent : tensor) (g : G) (w : W),
    In (EvPoll k true)
       (trace_of (sampling_loop c a msk i timesteps latent g w)) ->
    result_of (sampling_loop c a msk i timesteps latent g w) = Ok None
    /\ forall j p,
         In (EvSolverStep j p)
            (trace_of (sampling_loop c a msk i timesteps latent g w)) ->
         (j < k)%nat.
Proof.
  induction timesteps as [|t rest IH]; intros i latent g w; simpl.
  - intros [].
  - pose proof (loop_body_emits c a msk i t latent g w) as Hbody.
    pose proof (loop_body_cancelled a msk i t latent g w k) as Hcancel.
    rewrite Forall_forall in Hbody.
    destruct (bind_run (loop_body c a msk i t latent g)
                (fun r => match r with
                          | None => ret None
                          | Some (latent', seed_g') =>
                              sampling_loop c a msk (S i) rest latent' seed_g'
                          end) w)
      as [(r & w1 & t1 & Hm & Hrun) | (e & w1 & t1 & Hm & Hrun)];
      rewrite Hrun; rewrite Hm in Hbody, Hcancel;
      unfold trace_of, result_of in *; simpl in *.
    + destruct r as [[latent' g']|]; simpl.
      * intro Hin. apply in_app_or in Hin as [Hin|Hin].
        { destruct (Hcancel Hin) as [Habs _]. discriminate. }
        pose proof (sampling_loop_emits c a msk rest (S i) latent' g' w1)
          as Hrest.
        rewrite Forall_forall in Hrest.
        destruct (Hrest _ Hin) as [i' [Hi' Hk]]. simpl in Hk. subst i'.
        destruct (IH (S i) latent' g' w1 Hin) as [Hres Hsteps].
        split; [exact Hres|].
        intros j p Hj. apply in_app_or in Hj as [Hj|Hj].
        { specialize (Hbody _ Hj). simpl in Hbody. lia. }
        apply (Hsteps j p Hj).
      * rewrite app_nil_r. intro Hin.
        destruct (Hcancel Hin) as [_ Hnone]. split; [reflexivity|].
        intros j p Hj. exfalso. apply (Hnone j p Hj).
    + intro Hin. destruct (Hcancel Hin) as [Habs _]. discriminate.
Qed.

End Cancellation.

(** ** The shape of a run of [generate] *)

Section GenerateRuns.

Context {W G : Type} (c : collab W G).

Lemma generate_runs (self : wan_i2v) (a : gen_args) (w : W) :
  generate_run c self a w.
Proof.
  unfold generate, bind.
  destruct (prepare c self a w) as [[[p|e] w1] t1] eqn:Hprep.
  - destruct (sampling_loop c a (p_msk p) 0 (p_timesteps p) (p_noise p)
                (p_seed_g p) w1) as [[[[latent|]|e] w2] t2] eqn:Hloop.
    + destruct (finish c self a latent w2) as [[r w3] t3] eqn:Hfin.
      eapply RunFinished; try eassumption.
      unfold generate, bind. rewrite Hprep, Hloop, Hfin. reflexivity.
    + eapply RunCancelled; try eassumption.
      unfold generate, bind. rewrite Hprep, Hloop. simpl.
      rewrite app_nil_r. reflexivity.
    + eapply RunLoopRaised; try eassumption.
      unfold generate, bind. rewrite Hprep, Hloop. reflexivity.
  - eapply RunPrepareRaised; try eassumption.
    unfold generate, bind. rewrite Hprep. reflexivity.
Qed.

Lemma prepare_trace (self : wan_i2v) (a : gen_args) (w : W) (e : event) :
  In e (trace_of (prepare c self a w)) -> prepare_event self a e.
Proof.
  pose proof (prepare_emits c self a w) as H.
  rewrite Forall_forall in H. apply H.
Qed.

(** Nothing of the sampling loop or the decoding happens in lines 193-355. *)
Lemma prepare_no_sampling (self : wan_i2v) (a : gen_args) (w : W)
    (e : event) :
  In e (trace_of (prepare c self a w)) ->
  match e with
  | EvForward _ _ _ | EvPoll _ _ | EvSolverStep _ _ | EvVaeDecode _ => False
  | _ => True
  end.
Proof.
  intro H. apply prepare_trace in H.
  destruct e; try exact I; destruct H as [[]|[]].
Qed.

Lemma loop_trace (a : gen_args) (msk : Mask.mask) (ts : list Qc) (i : nat)
    (latent : tensor) (g : G) (w : W) (e : event) :
  In e (trace_of (sampling_loop c a msk i ts latent g w)) ->
  loop_event a i e.
Proof.
  pose proof (sampling_loop_emits c a msk ts i latent g w) as H.
  rewrite Forall_forall in H. apply H.
Qed.

Lemma finish_trace (self : wan_i2v) (a : gen_args) (latent : tensor) (w : W)
    (e : event) :
  In e (trace_of (finish c self a latent w)) -> finish_event self a e.
Proof.
  pose proof (finish_emits c self a latent w) as H.
  rewrite Forall_forall in H. apply H.
Qed.

(** Where an event of a run of [generate] comes from. *)
Lemma generate_trace (self : wan_i2v) (a : gen_args) (w : W) (e : event) :
  In e (trace_of (generate c self a w)) ->
  prepare_event self a e \/ loop_event a 0 e \/ finish_event self a e.
Proof.
  destruct (generate_runs self a w); rewrite Hgen; unfold trace_of; simpl;
    intro Hin.
  - left. apply (prepare_trace self a w). rewrite Hprep. exact Hin.
  - apply in_app_or in Hin as [Hin|Hin].
    + left. apply (prepare_trace self a w). rewrite Hprep. exact Hin.
    + right; left. eapply loop_trace. rewrite Hloop. exact Hin.
  - apply in_app_or in Hin as [Hin|Hin].
    + left. apply (prepare_trace self a w). rewrite Hprep. exact Hin.
    + right; left. eapply loop_trace. rewrite Hloop. exact Hin.
  - apply in_app_or in Hin as [Hin|Hin].
    + left. apply (prepare_trace self a w). rewrite Hprep. exact Hin.
    + apply in_app_or in Hin as [Hin|Hin].
      * right; left. eapply loop_trace. rewrite Hloop. exact Hin.
      * right; right. eapply finish_trace. rewrite Hfin. exact Hin.
Qed.

End GenerateRuns.

(** C7: if a poll after a forward evaluation of step [k] sees the
    cancellation flag set, [generate] returns the no-result [None], the solver
    step has been invoked for steps before [k] only, and nothing is decoded.
    A poll of step [k] exists only for [k] below the number of timesteps, so
    this covers every [k < S - 1]. *)
Theorem cancellation_stops_sampling {W G : Type} (c : collab W G)
    (self : wan_i2v) (a : gen_args) (w : W) (k : nat) :
  In (EvPoll k true) (trace_of (generate c self a w)) ->
  result_of (generate c self a w) = Ok None
  /\ (forall j p,
         In (EvSolverStep j p) (trace_of (generate c self a w)) -> (j < k)%nat)
  /\ (forall b, ~ In (EvVaeDecode b) (trace_of (generate c self a w))).
Proof.
  intro Hpoll.
  assert (Hnot_prep : forall t1 w1 r,
             prepare c self a w = (r, w1, t1) -> ~ In (EvPoll k true) t1).
  { intros t1 w1 r Hprep Hin.
    apply (prepare_no_sampling c self a w (EvPoll k true)).
    rewrite Hprep. exact Hin. }
  destruct (generate_runs c self a w); rewrite Hgen in *;
    unfold trace_of, result_of in *; simpl in *.
  - exfalso. eapply Hnot_prep; eassumption.
  - exfalso. apply in_app_or in Hpoll as [Hin|Hin].
    + eapply Hnot_prep; eassumption.
    + pose proof (sampling_loop_cancelled c a (p_msk p) (p_timesteps p) k 0
                    (p_noise p) (p_seed_g p) w1) as Hc.
      rewrite Hloop in Hc. destruct (Hc Hin) as [Habs _]. discriminate.
  - split; [reflexivity|].
    apply in_app_or in Hpoll as [Hin|Hin];
      [exfalso; eapply Hnot_prep; eassumption|].
    pose proof (sampling_loop_cancelled c a (p_msk p) (p_timesteps p) k 0
                  (p_noise p) (p_seed_g p) w1) as Hc.
    rewrite Hloop in Hc. destruct (Hc Hin) as [_ Hsteps].
    split.
    + intros j q Hj. apply in_app_or in Hj as [Hj|Hj].
      * exfalso. apply (prepare_no_sampling c self a w (EvSolverStep j q)).
        rewrite Hprep. exact Hj.
      * apply (Hsteps j q Hj).
    + intros b Hb. apply in_app_or in Hb as [Hb|Hb].
      * apply (prepare_no_sampling c self a w (EvVaeDecode b)).
        rewrite Hprep. exact Hb.
      * pose proof (loop_trace c a (p_msk p) (p_timesteps p) 0 (p_noise p)
                      (p_seed_g p) w1 (EvVaeDecode b)) as Hl.
        rewrite Hloop in Hl. destruct (Hl Hb) as [i [_ []]].
  - exfalso. apply in_app_or in Hpoll as [Hin|Hin];
      [eapply Hnot_prep; eassumption|].
    apply in_app_or in Hin as [Hin|Hin].
    + pose proof (sampling_loop_cancelled c a (p_msk p) (p_timesteps p) k 0
                    (p_noise p) (p_seed_g p) w1) as Hc.
      rewrite Hloop in Hc. destruct (Hc Hin) as [Habs _]. discriminate.
    + apply (finish_trace c self a latent w2 (EvPoll k true)).
      rewrite Hfin. exact Hin.
Qed.

Lemma cancellation_stops_sampling_witness :
  let run := generate Demo.env (Demo.pipeline 0)
               (Demo.call "unipc" None 5 3 7 true)
               (Demo.start (Some 3%nat)) in
  In (EvPoll 1 true) (trace_of run)
  /\ result_of run = Ok None
  /\ (forall j p, In (EvSolverStep j p) (trace_of run) -> (j < 1)%nat)
  /\ (forall b, ~ In (EvVaeDecode b) (trace_of run)).
Proof.
  cbv zeta.
  assert (H : In (EvPoll 1 true)
                (trace_of (generate Demo.env (Demo.pipeline 0)
                             (Demo.call "unipc" None 5 3 7 true)
                             (Demo.start (Some 3%nat))))).
  { vm_compute. tauto. }
  split; [exact H|].
  exact (cancellation_stops_sampling Demo.env (Demo.pipeline 0)
           (Demo.call "unipc" None 5 3 7 true) (Demo.start (Some 3%nat))
           1%nat H).
Defined.

(** ** C9: only rank 0 decodes *)

(** C9: on every rank other than 0, [generate] never decodes and never
    returns a video; when the preparation succeeds and the sampling loop runs
    to its end without cancellation, it returns [None]. *)
Theorem nonzero_rank_returns_none {W G : Type} (c : collab W G)
    (self : wan_i2v) (a : gen_args) (w : W) :
  rank self <> 0 ->
  (forall b, ~ In (EvVaeDecode b) (trace_of (generate c self a w)))
  /\ (forall v, result_of (generate c self a w) <> Ok (Some v))
  /\ (forall p w1 t1 latent w2 t2,
         prepare c self a w = (Ok p, w1, t1) ->
         sampling_loop c a (p_msk p) 0 (p_timesteps p) (p_noise p)
           (p_seed_g p) w1 = (Ok (Some latent), w2, t2) ->
         result_of (generate c self a w) = Ok None).
Proof.
  intro Hrank.
  assert (Hfin : forall latent w2,
             result_of (finish c self a latent w2) = Ok None).
  { intros latent w2. unfold finish, bind, when, do_ext, ret, result_of.
    apply Z.eqb_neq in Hrank. rewrite Hrank.
    destruct (offload_model a); simpl;
      destruct (dist_initialized c _); reflexivity. }
  split; [|split].
  - intros b Hb. apply generate_trace in Hb as [Hb|[Hb|Hb]]; simpl in Hb.
    + destruct Hb as [[]|[]].
    + destruct Hb as [i [_ []]].
    + destruct Hb as [Hb _]. apply Hrank. exact Hb.
  - intros v Hv.
    destruct (generate_runs c self a w); rewrite Hgen in Hv;
      unfold result_of in Hv; simpl in Hv; try discriminate.
    pose proof (Hfin latent w2) as Hf. rewrite Hfin0 in Hf.
    unfold result_of in Hf; simpl in Hf. congruence.
  - intros p w1 t1 latent w2 t2 Hprep Hloop.
    unfold generate, bind, result_of. rewrite Hprep, Hloop.
    pose proof (Hfin latent w2) as Hf. unfold result_of in Hf.
    destruct (finish c self a latent w2) as [[r w3] t3]. simpl in *.
    exact Hf.
Qed.

Lemma nonzero_rank_returns_none_witness :
  result_of (generate Demo.env (Demo.pipeline 1)
               (Demo.call "unipc" None 5 2 7 true) (Demo.start None))
  = Ok None.
Proof.
  refine (proj2 (proj2 (nonzero_rank_returns_none Demo.env (Demo.pipeline 1)
            (Demo.call "unipc" None 5 2 7 true) (Demo.start None) _))
            _ _ _ _ _ _ _ _).
  - simpl. lia.
  - vm_compute. reflexivity.
  - vm_compute. reflexivity.
Defined.

(** ** C2: an unsupported solver name *)

Section UnsupportedSolver.

Context {W G : Type} (c : collab W G).

Lemma allocate_ok (self : wan_i2v) (a : gen_args) (w : W)
    (x : tensor * G * Mask.mask) (w1 : W) (t1 : list event) :
  allocate c self a w = (Ok x, w1, t1) ->
  (exists s, In (EvRandn s (noise_shape self a)) t1)
  /\ In (EvOnes (frame_num_used a) (lat_h self a) (lat_w self a)) t1
  /\ In (EvVaeEncode (end_frame_added a)) t1.
Proof.
  unfold allocate, initial_noise, draw_seed, conditioning_mask,
    encode_conditioning, noise_shape.
  unfold bind, emit, when, ret, raise, do_ext, lift_sum.
  destruct (any_end_frame a); simpl;
    destruct (max_area a <? 0); simpl; try discriminate;
    (destruct (seed a >=? 0); simpl; [|destruct (randint c _) as [s0 w0]]);
    destruct (lat_frames self a <? 0); simpl; try discriminate;
    destruct (frame_num_used a <? 0); simpl; try discriminate;
    destruct (Mask.build_mask _ _ _ _ _) as [e|m]; simpl; try discriminate;
    destruct (negb (t5_cpu self) && offload_model a); simpl;
    destruct (offload_model a); simpl;
    match goal with
    | |- context [if ?b then _ else _] => destruct b
    end; simpl; try discriminate;
    intro H; inversion H; subst; clear H;
    (split; [eexists|split]); simpl; tauto.
Qed.

Lemma unsupported_generate (self : wan_i2v) (a : gen_args) (w : W) :
  sample_solver a <> "unipc"%string -> sample_solver a <> "dpm++"%string ->
  generate c self a w
  = match allocate c self a w with
    | (Ok _, w1, t1) => (Raise NotImplementedError, w1, t1)
    | (Raise e, w1, t1) => (Raise e, w1, t1)
    end.
Proof.
  intros H1 H2. apply String.eqb_neq in H1, H2.
  unfold generate, prepare, select_solver, bind, raise.
  rewrite H1, H2.
  destruct (allocate c self a w) as [[[x|e] w1] t1]; [|reflexivity].
  rewrite app_nil_r. reflexivity.
Qed.

End UnsupportedSolver.

(** A call naming the solver "euler" raises [NotImplementedError] with the
    noise tensor, the mask and the encoder input already allocated. *)
Lemma unsupported_solver_raised_after_allocation :
  let run := generate Demo.env (Demo.pipeline 0)
               (Demo.call "euler" None 5 3 7 true) (Demo.start None) in
  result_of run = Raise NotImplementedError
  /\ In (EvRandn 7 (16, 2, 2, 2)) (trace_of run)
  /\ In (EvOnes 5 2 2) (trace_of run)
  /\ In (EvEncAlloc 4 16 16) (trace_of run).
Proof.
  cbv zeta. split; [vm_compute; reflexivity|].
  repeat split; vm_compute; tauto.
Qed.

(** C2 (amended): a call whose [sample_solver] is neither ['unipc'] nor
    ['dpm++'] always ends in an exception, raised before the sampling loop
    starts: no scheduler is set up, no progress callback, forward evaluation,
    solver step or decoding happens.  When the lines before the solver
    selection succeed, the exception is [NotImplementedError], and by then
    the noise tensor and the conditioning mask are allocated and the
    conditioning is VAE-encoded. *)
Theorem unsupported_solver_raises {W G : Type} (c : collab W G)
    (self : wan_i2v) (a : gen_args) (w : W) :
  sample_solver a <> "unipc"%string -> sample_solver a <> "dpm++"%string ->
  (exists e, result_of (generate c self a w) = Raise e)
  /\ (forall e, In e (trace_of (generate c self a w)) ->
                allocate_event self a e)
  /\ (forall x w1 t1,
         allocate c self a w = (Ok x, w1, t1) ->
         generate c self a w = (Raise NotImplementedError, w1, t1)
         /\ (exists s, In (EvRandn s (noise_shape self a)) t1)
         /\ In (EvOnes (frame_num_used a) (lat_h self a) (lat_w self a)) t1
         /\ In (EvVaeEncode (end_frame_added a)) t1).
Proof.
  intros H1 H2. rewrite (unsupported_generate c self a w H1 H2).
  pose proof (allocate_emits c self a w) as Hall.
  rewrite Forall_forall in Hall.
  split; [|split].
  - destruct (allocate c self a w) as [[[x|e] w1] t1];
      eexists; reflexivity.
  - intros e He. apply Hall.
    destruct (allocate c self a w) as [[[x|e0] w1] t1]; exact He.
  - intros x w1 t1 Ha. rewrite Ha. split; [reflexivity|].
    apply (allocate_ok c self a w x w1 t1 Ha).
Qed.

Lemma unsupported_solver_raises_witness :
  exists e,
    result_of (generate Demo.env (Demo.pipeline 0)
                 (Demo.call "euler" None 5 3 7 true) (Demo.start None))
    = Raise e.
Proof.
  refine (proj1 (unsupported_solver_raises Demo.env (Demo.pipeline 0)
                   (Demo.call "euler" None 5 3 7 true) (Demo.start None)
                   _ _)).
  - simpl. discriminate.
  - simpl. discriminate.
Defined.

(** ** C10: the initial noise *)

Section InitialNoise.

Context {W G : Type} (c : collab W G).

Lemma allocate_noise (self : wan_i2v) (a : gen_args) (w : W)
    (x : tensor * G * Mask.mask) (w1 : W) (t1 : list event) :
  allocate c self a w = (Ok x, w1, t1) ->
  exists s,
    fst (fst x) = fst (randn c (manual_seed c s) (noise_shape self a))
    /\ In (EvRandn s (noise_shape self a)) t1
    /\ (0 <= seed a -> s = seed a /\ forall d, ~ In (EvRandInt d) t1)
    /\ (seed a < 0 ->
        exists w0, s = fst (randint c w0) /\ In (EvRandInt s) t1).
Proof.
  intro Ha.
  assert (Hdraw : forall d, In (EvRandInt d) t1 -> seed a < 0).
  { intros d Hd. pose proof (allocate_emits c self a w) as Hall.
    rewrite Forall_forall in Hall. rewrite Ha in Hall.
    apply (Hall (EvRandInt d) Hd). }
  revert Ha.
  unfold allocate, initial_noise, draw_seed, conditioning_mask,
    encode_conditioning, noise_shape.
  unfold bind, emit, when, ret, raise, do_ext, lift_sum.
  destruct (any_end_frame a); simpl;
    destruct (max_area a <? 0); simpl; try discriminate;
    (destruct (seed a >=? 0) eqn:Hseed; simpl;
     [|destruct (randint c _) as [s0 w0] eqn:Hrand]);
    destruct (lat_frames self a <? 0); simpl; try discriminate;
    destruct (frame_num_used a <? 0); simpl; try discriminate;
    destruct (Mask.build_mask _ _ _ _ _) as [e|m]; simpl; try discriminate;
    destruct (negb (t5_cpu self) && offload_model a); simpl;
    destruct (offload_model a); simpl;
    match goal with
    | |- context [if ?b then _ else _] => destruct b
    end; simpl; try discriminate;
    intro H; inversion H; subst; clear H;
    rewrite Z.geb_leb in Hseed;
    first [ apply Z.leb_le in Hseed | apply Z.leb_gt in Hseed ].
  all: first
    [ exists (seed a); split; [reflexivity|]; split; [simpl; tauto|];
      split; [intros _; split; [reflexivity|];
              intros d Hd; apply Hdraw in Hd; lia
             | intro; lia]
    | exists s0; split; [reflexivity|]; split; [simpl; tauto|];
      split; [intro; lia|];
      intros _; eexists; split; [rewrite Hrand; reflexivity | simpl; tauto] ].
Qed.

Lemma prepare_allocated (self : wan_i2v) (a : gen_args) (w : W)
    (p : prepared) (w1 : W) (t1 : list event) :
  prepare c self a w = (Ok p, w1, t1) ->
  exists x w0 t0 t',
    allocate c self a w = (Ok x, w0, t0)
    /\ p_noise p = fst (fst x) /\ p_msk p = snd x /\ t1 = t0 ++ t'.
Proof.
  unfold prepare at 1. intro Hp.
  match type of Hp with
  | bind ?m ?f w = _ => destruct (bind_run m f w)
      as [(x & w0 & t0 & Hm & Hrun) | (e & w0 & t0 & Hm & Hrun)]
  end; rewrite Hrun in Hp; [|discriminate].
  exists x, w0, t0. eexists. split; [exact Hm|].
  inversion Hp as [[Hr Hw Ht]]. clear Hp Hrun.
  assert (Hshape : forall r, result_of
            ((timesteps <- select_solver c a ;;
              do_ext c EvRotaryPosEmbed ;;;
              when (offload_model a) (do_ext c EvEmptyCache) ;;;
              teacache <- (fun w => (Ok (enable_teacache c w), w, [])) ;;
              when teacache (do_ext c EvTeacacheThreshold) ;;;
              when (callback a) (do_ext c (EvCallback (-1) true)) ;;;
              ret {| p_noise := fst (fst x); p_seed_g := snd (fst x);
                     p_msk := snd x; p_timesteps := timesteps |})%run w0)
            = Ok r -> p_noise r = fst (fst x) /\ p_msk r = snd x).
  { intro r. unfold select_solver, bind, when, do_ext, ret, raise, result_of.
    destruct (String.eqb (sample_solver a) "unipc");
      [destruct (unipc_timesteps c _ _ w0) as [ts w2]
      |destruct (String.eqb (sample_solver a) "dpm++");
       [destruct (dpm_timesteps c _ _ w0) as [ts w2]|]];
      simpl; try discriminate;
      destruct (offload_model a); simpl;
      destruct (enable_teacache c _); simpl;
      destruct (callback a); simpl;
      intro H; inversion H; subst; simpl; split; reflexivity. }
  destruct (Hshape p Hr) as [Hn Hk].
  split; [exact Hn|]. split; [exact Hk|]. reflexivity.
Qed.

End InitialNoise.

(** C10: with a non-negative [seed], the initial noise is
    [torch.randn] on a generator seeded with [seed], for the shape
    [(16, lat_frames, lat_h, lat_w)]: Python's global random state is not
    consulted, and two calls with the same seed and the same latent shape
    start from the same noise, whatever the state of the world and the other
    arguments.  With a negative [seed], the generator is seeded with a number
    drawn by [random.randint]. *)
Theorem noise_determined_by_seed {W G : Type} (c : collab W G)
    (self : wan_i2v) :
  (forall a1 a2 w1 w2 p1 p2 w1' w2' t1 t2,
      0 <= seed a1 -> seed a2 = seed a1 ->
      noise_shape self a2 = noise_shape self a1 ->
      prepare c self a1 w1 = (Ok p1, w1', t1) ->
      prepare c self a2 w2 = (Ok p2, w2', t2) ->
      p_noise p1
      = fst (randn c (manual_seed c (seed a1)) (noise_shape self a1))
      /\ p_noise p2 = p_noise p1
      /\ In (EvRandn (seed a1) (noise_shape self a1)) t1
      /\ (forall d, ~ In (EvRandInt d) t1))
  /\ (forall a w p w' t,
         seed a < 0 ->
         prepare c self a w = (Ok p, w', t) ->
         exists w0,
           In (EvRandInt (fst (randint c w0))) t
           /\ In (EvRandn (fst (randint c w0)) (noise_shape self a)) t
           /\ p_noise p
              = fst (randn c (manual_seed c (fst (randint c w0)))
                       (noise_shape self a))).
Proof.
  split.
  - intros a1 a2 w1 w2 p1 p2 w1' w2' t1 t2 Hseed Heq Hshape Hp1 Hp2.
    destruct (prepare_allocated c self a1 w1 p1 w1' t1 Hp1)
      as (x1 & u1 & s1 & r1 & Ha1 & Hn1 & _ & Ht1).
    destruct (prepare_allocated c self a2 w2 p2 w2' t2 Hp2)
      as (x2 & u2 & s2 & r2 & Ha2 & Hn2 & _ & Ht2).
    destruct (allocate_noise c self a1 w1 x1 u1 s1 Ha1)
      as (d1 & Hd1 & Hin1 & Hpos1 & _).
    destruct (allocate_noise c self a2 w2 x2 u2 s2 Ha2)
      as (d2 & Hd2 & _ & Hpos2 & _).
    destruct (Hpos1 Hseed) as [-> _].
    destruct Hpos2 as [-> _]; [lia|].
    split; [congruence|]. split; [congruence|]. split.
    + rewrite Ht1. apply in_or_app. left. exact Hin1.
    + intros d Hd.
      pose proof (prepare_trace c self a1 w1 (EvRandInt d)) as Hev.
      rewrite Hp1 in Hev. destruct (Hev Hd) as [Hneg|[]].
      simpl in Hneg. lia.
  - intros a w p w' t Hseed Hp.
    destruct (prepare_allocated c self a w p w' t Hp)
      as (x & u & s & r & Ha & Hn & _ & Ht).
    destruct (allocate_noise c self a w x u s Ha)
      as (d & Hd & Hin & _ & Hneg).
    destruct (Hneg Hseed) as (w0 & -> & Hdrawn).
    exists w0. subst t. split; [|split].
    + apply in_or_app. left. exact Hdrawn.
    + apply in_or_app. left. exact Hin.
    + congruence.
Qed.

Lemma noise_determined_by_seed_witness :
  match
    result_of (prepare Demo.env (Demo.pipeline 0)
                 (Demo.call "unipc" None 5 3 7 true) (Demo.start None)),
    result_of (prepare Demo.env (Demo.pipeline 0)
                 (Demo.call "dpm++" None 5 9 7 false)
                 (Demo.start (Some 2%nat)))
  with
  | Ok p1, Ok p2 => p_noise p2 = p_noise p1
  | _, _ => False
  end.
Proof.
  destruct (prepare Demo.env (Demo.pipeline 0)
              (Demo.call "unipc" None 5 3 7 true) (Demo.start None))
    as [[[p1|e1] w1'] t1] eqn:H1;
    [|vm_compute in H1; discriminate].
  destruct (prepare Demo.env (Demo.pipeline 0)
              (Demo.call "dpm++" None 5 9 7 false)
              (Demo.start (Some 2%nat)))
    as [[[p2|e2] w2'] t2] eqn:H2;
    [|vm_compute in H2; discriminate].
  unfold result_of. simpl.
  refine (proj1 (proj2 (proj1 (noise_determined_by_seed Demo.env
            (Demo.pipeline 0))
            (Demo.call "unipc" None 5 3 7 true)
            (Demo.call "dpm++" None 5 9 7 false)
            (Demo.start None) (Demo.start (Some 2%nat))
            p1 p2 w1' w2' t1 t2 _ _ _ H1 H2))).
  - simpl. lia.
  - reflexivity.
  - reflexivity.
Defined.

(** ** C8: the frame reserved for the end image *)






(** ** Slices of the shapes the mask construction meets *)

Section SliceLemmas.

Context {A : Type}.

Lemma slice_head (x : A) (l : list A) :
  PySlice.slice (Some 0) (Some 1) (x :: l) = [x].
Proof. reflexivity. Qed.

Lemma slice_tail (x : A) (l : list A) :
  PySlice.slice (Some 1) None (x :: l) = l.
Proof.
  unfold PySlice.slice, PySlice.lower, PySlice.upper, PySlice.clamp. simpl.
  rewrite Nat.sub_0_r. apply firstn_all.
Qed.

Lemma slice_middle (x y : A) (m : list A) :
  PySlice.slice (Some 1) (Some (-1)) (x :: m ++ [y]) = m.
Proof.
  unfold PySlice.slice, PySlice.lower, PySlice.upper, PySlice.clamp.
  cbv zeta. change (-1 <? 0) with true. change (1 <? 0) with false.
  cbv iota.
  replace (List.length (x :: m ++ [y])) with (S (S (List.length m)))
    by (simpl; rewrite length_app; simpl; lia).
  replace (Nat.min (Z.to_nat 1) (S (S (List.length m)))) with 1%nat by lia.
  replace (Z.to_nat (Z.max 0 (Z.of_nat (S (S (List.length m))) + -1)))
    with (S (List.length m)) by lia.
  simpl. rewrite Nat.sub_0_r. rewrite firstn_app, firstn_all.
  rewrite Nat.sub_diag. simpl. apply app_nil_r.
Qed.

Lemma slice_last (x y : A) (m : list A) :
  PySlice.slice (Some (-1)) None (x :: m ++ [y]) = [y].
Proof.
  unfold PySlice.slice, PySlice.lower, PySlice.upper, PySlice.clamp.
  cbv zeta. change (-1 <? 0) with true. change (1 <? 0) with false.
  cbv iota.
  replace (List.length (x :: m ++ [y])) with (S (S (List.length m)))
    by (simpl; rewrite length_app; simpl; lia).
  replace (Z.to_nat (Z.max 0 (Z.of_nat (S (S (List.length m))) + -1)))
    with (S (List.length m)) by lia.
  replace (S (S (List.length m)) - S (List.length m))%nat with 1%nat by lia.
  simpl. rewrite skipn_app, skipn_all, Nat.sub_diag. reflexivity.
Qed.

Lemma fill_tail (f : A -> A) (x : A) (l : list A) :
  PySlice.fill (Some 1) None f (x :: l) = x :: map f l.
Proof.
  unfold PySlice.fill, PySlice.lower, PySlice.upper, PySlice.clamp. simpl.
  rewrite Nat.sub_0_r, firstn_all.
  replace (skipn _ l) with (@nil A); [rewrite app_nil_r; reflexivity|].
  symmetry. apply skipn_all2. destruct (List.length l); simpl; lia.
Qed.

Lemma fill_middle (f : A -> A) (x y : A) (m : list A) :
  PySlice.fill (Some 1) (Some (-1)) f (x :: m ++ [y]) = x :: map f m ++ [y].
Proof.
  unfold PySlice.fill, PySlice.lower, PySlice.upper, PySlice.clamp.
  cbv zeta. change (-1 <? 0) with true. change (1 <? 0) with false.
  cbv iota.
  replace (List.length (x :: m ++ [y])) with (S (S (List.length m)))
    by (simpl; rewrite length_app; simpl; lia).
  replace (Nat.min (Z.to_nat 1) (S (S (List.length m)))) with 1%nat by lia.
  replace (Z.to_nat (Z.max 0 (Z.of_nat (S (S (List.length m))) + -1)))
    with (S (List.length m)) by lia.
  rewrite Nat.max_r by lia. simpl. rewrite Nat.sub_0_r.
  rewrite firstn_app, firstn_all, Nat.sub_diag. simpl. rewrite app_nil_r.
  rewrite skipn_app, skipn_all, Nat.sub_diag. reflexivity.
Qed.

Lemma repeat_snoc (x : A) (n : nat) : repeat x (S n) = repeat x n ++ [x].
Proof. induction n as [|n IH]; simpl in *; [reflexivity | f_equal; exact IH]. Qed.

End SliceLemmas.

(** ** The conditioning mask *)

Section MaskLemmas.

Import Mask.

Variables h w : nat.

Let one : frame := ones_frame h w.
Let zero : frame := zero_fill (ones_frame h w).

Lemma ones_split (n : nat) :
  repeat one (S (S n)) = one :: repeat one n ++ [one].
Proof.
  change (repeat one (S (S n))) with (one :: repeat one (S n)).
  rewrite repeat_snoc. reflexivity.
Qed.

(** Start anchor only: frame 0 four times, then the zeroed frames. *)
Lemma mask_frames_start (n : nat) (add : bool) :
  mask_frames (Z.of_nat (S n)) false add h w
  = repeat one 4 ++ repeat zero n.
Proof.
  unfold mask_frames. rewrite Nat2Z.id.
  change (repeat (ones_frame h w) (S n)) with (one :: repeat one n).
  rewrite fill_tail, slice_head, slice_tail, map_repeat. reflexivity.
Qed.

(** Both anchors, no reserved frame: the last frame stays single. *)
Lemma mask_frames_end_kept (n : nat) :
  mask_frames (Z.of_nat (S (S n))) true false h w
  = repeat one 4 ++ repeat zero n ++ [one].
Proof.
  unfold mask_frames. rewrite Nat2Z.id.
  fold one. rewrite ones_split.
  rewrite fill_middle, slice_head, slice_tail, map_repeat. reflexivity.
Qed.

(** Both anchors and a reserved frame: the last frame four times too. *)
Lemma mask_frames_end_added (n : nat) :
  mask_frames (Z.of_nat (S (S n))) true true h w
  = repeat one 4 ++ repeat zero n ++ repeat one 4.
Proof.
  unfold mask_frames. rewrite Nat2Z.id.
  fold one. rewrite ones_split.
  rewrite fill_middle, slice_head, slice_middle, slice_last, map_repeat.
  reflexivity.
Qed.

Lemma frame_all_one : frame_all 1 one = true.
Proof.
  unfold frame_all, one, ones_frame.
  apply forallb_forall. intros r Hr. apply repeat_spec in Hr. subst r.
  apply forallb_forall. intros x Hx. apply repeat_spec in Hx. subst x.
  reflexivity.
Qed.

Lemma one_shape : frame_has_shape h w one = true.
Proof.
  unfold frame_has_shape, one, ones_frame.
  rewrite repeat_length, Nat.eqb_refl. simpl.
  apply forallb_forall. intros r Hr. apply repeat_spec in Hr. subst r.
  rewrite repeat_length. apply Nat.eqb_refl.
Qed.

Lemma zero_shape : frame_has_shape h w zero = true.
Proof.
  unfold frame_has_shape, zero, zero_fill, ones_frame.
  rewrite length_map, repeat_length, Nat.eqb_refl. simpl.
  apply forallb_forall. intros r Hr. apply in_map_iff in Hr as [r0 [<- Hr0]].
  apply repeat_spec in Hr0. subst r0.
  rewrite length_map, repeat_length. apply Nat.eqb_refl.
Qed.

(** Every frame the construction handles is a ones frame or a zeroed one. *)
Lemma mask_frames_members (F : Z) (any add : bool) (f : frame) :
  In f (mask_frames F any add h w) -> f = one \/ f = zero.
Proof.
  assert (Hrep : forall n x, In x (repeat one n) -> x = one)
    by (intros n x Hx; apply repeat_spec in Hx; exact Hx).
  assert (Hzero : forall n x, In x (repeat zero n) -> x = zero)
    by (intros n x Hx; apply repeat_spec in Hx; exact Hx).
  destruct (Z.to_nat F) as [|[|n]] eqn:HF.
  - unfold mask_frames. rewrite HF. destruct any, add; simpl; tauto.
  - unfold mask_frames. rewrite HF. fold one.
    destruct any, add; simpl; intuition auto.
  - assert (EF : mask_frames F any add h w
                 = mask_frames (Z.of_nat (S (S n))) any add h w).
    { unfold mask_frames. rewrite HF, Nat2Z.id. reflexivity. }
    rewrite EF. destruct any; [destruct add|].
    + rewrite mask_frames_end_added. intro Hin.
      apply in_app_or in Hin as [Hin|Hin]; [left; eauto|].
      apply in_app_or in Hin as [Hin|Hin]; [right; eauto | left; eauto].
    + rewrite mask_frames_end_kept. intro Hin.
      apply in_app_or in Hin as [Hin|Hin]; [left; eauto|].
      apply in_app_or in Hin as [Hin|Hin]; [right; eauto|].
      destruct Hin as [<-|[]]. left. reflexivity.
    + rewrite (mask_frames_start (S n)). intro Hin.
      apply in_app_or in Hin as [Hin|Hin]; [left; eauto | right; eauto].
Qed.

End MaskLemmas.

Section ViewLemmas.

Import Mask.

Lemma group4_length {A : Type} (g : nat) (l : list A) :
  List.length (group4 g l) = g.
Proof.
  revert l. induction g as [|g IH]; intro l; simpl; [reflexivity|].
  rewrite IH. reflexivity.
Qed.

Lemma nth_group4 (g j : nat) (l : list frame) :
  (j < g)%nat -> nth j (group4 g l) [] = firstn 4 (skipn (4 * j) l).
Proof.
  revert j l. induction g as [|g IH]; intros j l Hj; [lia|].
  destruct j as [|j].
  - reflexivity.
  - change (nth (S j) (group4 (S g) l) [])
      with (nth j (group4 g (skipn 4 l)) []).
    rewrite IH by lia. rewrite skipn_skipn.
    replace (4 * j + 4)%nat with (4 * S j)%nat by lia. reflexivity.
Qed.

Lemma temporal_group_transpose (grps : list (list frame)) (j : nat) :
  temporal_group (transpose12 grps) j
  = map (fun c => nth c (nth j grps []) []) (seq 0 4).
Proof.
  unfold temporal_group, transpose12. rewrite map_map.
  apply map_ext. intro c.
  transitivity
    (nth j (map (fun grp : list frame => nth c grp []) grps)
       ((fun grp : list frame => nth c grp []) [])).
  - f_equal. destruct c; reflexivity.
  - apply (map_nth (fun grp : list frame => nth c grp [])).
Qed.

Lemma temporal_group_four (grps : list (list frame)) (j : nat)
    (f0 f1 f2 f3 : frame) :
  nth j grps [] = [f0; f1; f2; f3] ->
  temporal_group (transpose12 grps) j = [f0; f1; f2; f3].
Proof.
  intro H. rewrite temporal_group_transpose, H. reflexivity.
Qed.

Lemma groups_transpose (grps : list (list frame)) :
  groups (transpose12 grps) = List.length grps.
Proof. unfold groups, transpose12. simpl. apply length_map. Qed.

(** A temporal group all of whose source frames hold only [v] is entirely
    [v]. *)
Lemma entirely_group (v : Z) (grps : list (list frame)) (j : nat) :
  (forall f, In f (nth j grps []) -> frame_all v f = true) ->
  entirely v (temporal_group (transpose12 grps) j) = true.
Proof.
  intro Hall. rewrite temporal_group_transpose.
  unfold entirely. apply andb_true_intro. split.
  { rewrite length_map. reflexivity. }
  apply forallb_forall. intros f Hf.
  apply in_map_iff in Hf as [c [<- _]].
  destruct (nth_in_or_default c (nth j grps []) []) as [Hin|Hdef].
  - apply Hall. exact Hin.
  - rewrite Hdef. reflexivity.
Qed.

Lemma view_groups_ok (l : list frame) (h w : nat) (m : mask) :
  view_groups l h w = inr m ->
  m = transpose12 (group4 (List.length l / 4) l)
  /\ ((List.length l / 4 * 4 = List.length l)%nat \/ (h * w = 0)%nat).
Proof.
  unfold view_groups.
  destruct (Nat.eqb_spec (List.length l / 4 * 4 * h * w)
              (List.length l * h * w)) as [E|E]; [|discriminate].
  intro H. inversion H. split; [reflexivity|].
  destruct (Nat.eq_dec (h * w) 0) as [Hz|Hnz]; [right; exact Hz|].
  left. nia.
Qed.

Lemma view_groups_divisible (l : list frame) (h w : nat) :
  (List.length l / 4 * 4 = List.length l)%nat ->
  view_groups l h w
  = inr (transpose12 (group4 (List.length l / 4) l)).
Proof.
  intro E. unfold view_groups. rewrite E, Nat.eqb_refl. reflexivity.
Qed.

(** The last group of four of a list whose length is a multiple of four. *)
Lemma last_four (pre suf : list frame) (g : nat) :
  List.length suf = 4%nat -> (g * 4 = List.length (pre ++ suf))%nat ->
  nth (g - 1) (group4 g (pre ++ suf)) [] = suf.
Proof.
  intros Hsuf Hlen. rewrite length_app in Hlen.
  rewrite nth_group4 by lia.
  replace (4 * (g - 1))%nat with (List.length pre) by lia.
  rewrite skipn_app, skipn_all, Nat.sub_diag.
  change ([] ++ skipn 0 suf) with suf.
  rewrite <- Hsuf. apply firstn_all.
Qed.

Lemma empty_frames_all (v : Z) (h w : nat) (f : frame) :
  (h * w = 0)%nat ->
  f = ones_frame h w \/ f = zero_fill (ones_frame h w) ->
  frame_all v f = true.
Proof.
  intros Hz Hf. unfold frame_all, zero_fill, ones_frame in *.
  apply forallb_forall. intros r Hr.
  assert (Hrow : r = []).
  { destruct h as [|h]; [destruct Hf; subst f; destruct Hr|].
    destruct w as [|w]; [|lia].
    destruct Hf; subst f.
    - apply repeat_spec in Hr. exact Hr.
    - apply in_map_iff in Hr as [r0 [<- Hr0]].
      apply repeat_spec in Hr0. subst r0. reflexivity. }
  subst r. reflexivity.
Qed.

End ViewLemmas.

Section GroupMembers.

Import Mask.

Lemma in_firstn {A : Type} (n : nat) (l : list A) (x : A) :
  In x (firstn n l) -> In x l.
Proof.
  intro H. rewrite <- (firstn_skipn n l). apply in_or_app. left. exact H.
Qed.

Lemma in_skipn {A : Type} (n : nat) (l : list A) (x : A) :
  In x (skipn n l) -> In x l.
Proof.
  intro H. rewrite <- (firstn_skipn n l). apply in_or_app. right. exact H.
Qed.

Lemma in_group (g j : nat) (l : list frame) (f : frame) :
  In f (nth j (group4 g l) []) -> In f l.
Proof.
  destruct (Nat.lt_ge_cases j g) as [Hlt|Hge].
  - rewrite nth_group4 by exact Hlt. intro H.
    apply in_firstn in H. apply in_skipn in H. exact H.
  - rewrite nth_overflow by (rewrite group4_length; exact Hge). intros [].
Qed.

(** Whatever group is read, it is entirely 1 when the frames have no entry. *)
Lemma entirely_when_empty (F : Z) (any add : bool) (h w g j : nat) :
  (h * w = 0)%nat ->
  entirely 1
    (temporal_group (transpose12 (group4 g (mask_frames F any add h w))) j)
  = true.
Proof.
  intro Hz. apply entirely_group. intros f Hf.
  apply in_group in Hf. apply mask_frames_members in Hf.
  apply (empty_frames_all 1 h w f Hz Hf).
Qed.

Lemma mask_frames_to_nat (F : Z) (any add : bool) (h w : nat) :
  mask_frames F any add h w = mask_frames (Z.of_nat (Z.to_nat F)) any add h w.
Proof. unfold mask_frames. rewrite Nat2Z.id. reflexivity. Qed.

End GroupMembers.

(** ** C3: the last temporal group *)

(** With an end image but [add_frames_for_end_image] off, five frames on a
    1x1 latent give a mask whose last temporal group is 0, 0, 0, 1. *)
Lemma last_group_without_added_frame :
  exists m,
    Mask.build_mask 5 true false 1 1 = inr m
    /\ Mask.last_group m = [[[0]]; [[0]]; [[0]]; [[1]]]
    /\ Mask.entirely 1 (Mask.last_group m) = false.
Proof.
  eexists. split; [vm_compute; reflexivity|]. split; reflexivity.
Qed.

Section LastGroup.

Import Mask.

Variables h w : nat.

Lemma added_frames_length (n : nat) :
  (8 <= List.length (mask_frames (Z.of_nat (S n)) true true h w))%nat.
Proof.
  destruct n as [|n].
  - apply Nat.le_refl.
  - rewrite mask_frames_end_added. rewrite !length_app, !repeat_length. lia.
Qed.

Lemma added_frames_tail (n : nat) :
  exists pre,
    mask_frames (Z.of_nat (S n)) true true h w
    = pre ++ repeat (ones_frame h w) 4.
Proof.
  destruct n as [|n].
  - exists (repeat (ones_frame h w) 4). reflexivity.
  - rewrite mask_frames_end_added. rewrite app_assoc. eexists. reflexivity.
Qed.

Lemma kept_frame_split (k : nat) :
  mask_frames (Z.of_nat (4 * S k + 1)) true false h w
  = (repeat (ones_frame h w) 4 ++ repeat (zero_fill (ones_frame h w)) (4 * k))
    ++ [zero_fill (ones_frame h w); zero_fill (ones_frame h w);
        zero_fill (ones_frame h w); ones_frame h w].
Proof.
  replace (4 * S k + 1)%nat with (S (S (4 * k + 3))) by lia.
  rewrite mask_frames_end_kept, repeat_app, <- !app_assoc. reflexivity.
Qed.

(** C3 (amended): when an end image is supplied and
    [add_frames_for_end_image] is on, the last temporal group of every mask
    that is built is entirely 1 (and there are at least two groups).  With
    [add_frames_for_end_image] off and a frame count [4k + 1 >= 5], the last
    group is three zeroed frames followed by the end anchor's frame of
    ones. *)
Theorem last_group_of_end_anchor :
  (forall frame_num m,
      build_mask frame_num true true h w = inr m ->
      entirely 1 (last_group m) = true
      /\ (1 <= frame_num -> (2 <= groups m)%nat))
  /\ (forall k m,
         (1 <= k)%nat ->
         build_mask (Z.of_nat (4 * k + 1)) true false h w = inr m ->
         last_group m
         = [zero_fill (ones_frame h w); zero_fill (ones_frame h w);
            zero_fill (ones_frame h w); ones_frame h w]).
Proof.
  split.
  - intros frame_num m. unfold build_mask.
    destruct (frame_num <? 0) eqn:Hneg; [discriminate|].
    apply Z.ltb_ge in Hneg.
    rewrite mask_frames_to_nat. intro Hv.
    apply view_groups_ok in Hv as [-> Hdiv].
    unfold last_group. rewrite groups_transpose, group4_length.
    destruct (Z.to_nat frame_num) as [|n] eqn:HF.
    + split; [reflexivity | lia].
    + pose proof (added_frames_length n) as Hlen.
      destruct (added_frames_tail n) as [pre Hpre].
      split.
      * destruct Hdiv as [Hd|Hz]; [|apply entirely_when_empty; exact Hz].
        apply entirely_group. intros f Hf.
        rewrite Hpre in Hf, Hd. rewrite last_four in Hf;
          [|apply repeat_length | exact Hd].
        apply repeat_spec in Hf. subst f. apply frame_all_one.
      * intros _. apply Nat.div_le_lower_bound; lia.
  - intros k m Hk. destruct k as [|k]; [lia|].
    unfold build_mask.
    replace (Z.of_nat (4 * S k + 1) <? 0) with false
      by (symmetry; apply Z.ltb_ge; lia).
    rewrite kept_frame_split.
    set (pre := repeat (ones_frame h w) 4
                ++ repeat (zero_fill (ones_frame h w)) (4 * k)).
    set (suf := [zero_fill (ones_frame h w); zero_fill (ones_frame h w);
                 zero_fill (ones_frame h w); ones_frame h w]).
    assert (Hlen : List.length (pre ++ suf) = ((k + 2) * 4)%nat).
    { unfold pre, suf. rewrite !length_app, !repeat_length. simpl. lia. }
    assert (Hg : (List.length (pre ++ suf) / 4 = k + 2)%nat).
    { rewrite Hlen. apply Nat.div_mul. lia. }
    assert (Hdiv : (List.length (pre ++ suf) / 4 * 4
                    = List.length (pre ++ suf))%nat)
      by (rewrite Hg; symmetry; exact Hlen).
    rewrite (view_groups_divisible (pre ++ suf) h w Hdiv).
    intro H.
    assert (Hm : m = transpose12
                       (group4 (List.length (pre ++ suf) / 4) (pre ++ suf)))
      by congruence.
    rewrite Hm. clear H Hm.
    unfold last_group. rewrite groups_transpose, group4_length, Hg.
    apply temporal_group_four.
    apply (last_four pre suf (k + 2)); [reflexivity | symmetry; exact Hlen].
Qed.

End LastGroup.

Lemma last_group_of_end_anchor_witness :
  match Mask.build_mask 6 true true 1 1 with
  | inr m => Mask.entirely 1 (Mask.last_group m) = true
  | inl _ => False
  end.
Proof.
  destruct (Mask.build_mask 6 true true 1 1) as [e|m] eqn:H.
  - vm_compute in H. discriminate.
  - exact (proj1 (proj1 (last_group_of_end_anchor 1 1) 6 m H)).
Defined.

(** ** C4: the shape of the mask and its first temporal group *)

(** 81 frames on a 1x1 latent: 21 temporal groups, not [81 / 4 = 20]. *)
Lemma mask_groups_not_quarter_of_frames :
  exists m,
    Mask.build_mask 81 false false 1 1 = inr m
    /\ Mask.has_shape 4 (Z.to_nat (81 / 4)) 1 1 m = false
    /\ Mask.has_shape 4 21 1 1 m = true.
Proof.
  eexists. split; [vm_compute; reflexivity|].
  split; vm_compute; reflexivity.
Qed.

Section MaskShape.

Import Mask.

Variables h w : nat.

Lemma group4_members (g : nat) (l : list frame) (grp : list frame) :
  (4 * g <= List.length l)%nat -> In grp (group4 g l) ->
  List.length grp = 4%nat /\ (forall f, In f grp -> In f l).
Proof.
  revert l grp. induction g as [|g IH]; intros l grp Hlen Hin;
    [destruct Hin|].
  change (group4 (S g) l) with (firstn 4 l :: group4 g (skipn 4 l)) in Hin.
  destruct Hin as [E|Hin].
  - rewrite <- E. split; [apply firstn_length_le; lia | apply in_firstn].
  - destruct (IH (skipn 4 l) grp) as [H4 Hsub];
      [rewrite length_skipn; lia | exact Hin |].
    split; [exact H4|]. intros f Hf. apply (in_skipn 4). apply Hsub. exact Hf.
Qed.

Lemma transposed_shape (g : nat) (l : list frame) :
  (4 * g <= List.length l)%nat ->
  (forall f, In f l -> frame_has_shape h w f = true) ->
  has_shape 4 g h w (transpose12 (group4 g l)) = true.
Proof.
  intros Hlen Hall. unfold has_shape, transpose12.
  apply andb_true_intro. split; [rewrite length_map; reflexivity|].
  apply forallb_forall. intros ch Hch.
  apply in_map_iff in Hch as [c [<- Hc]]. apply in_seq in Hc.
  apply andb_true_intro. split.
  - rewrite length_map, group4_length. apply Nat.eqb_refl.
  - apply forallb_forall. intros f Hf.
    apply in_map_iff in Hf as [grp [<- Hgrp]].
    destruct (group4_members g l grp Hlen Hgrp) as [H4 Hsub].
    apply Hall. apply Hsub. apply nth_In. unfold frame in *. lia.
Qed.

Lemma mask_frames_shaped (F : Z) (any add : bool) (f : frame) :
  In f (mask_frames F any add h w) -> frame_has_shape h w f = true.
Proof.
  intro Hf. apply mask_frames_members in Hf as [->| ->];
    [apply one_shape | apply zero_shape].
Qed.

(** From one frame on, the frames start with frame 0 replicated 4 times. *)
Lemma mask_frames_head (n : nat) (any add : bool) :
  exists rest,
    mask_frames (Z.of_nat (S n)) any add h w
    = repeat (ones_frame h w) 4 ++ rest.
Proof.
  destruct any; [destruct add|].
  - destruct n as [|n]; [eexists; reflexivity|].
    rewrite mask_frames_end_added. eexists. reflexivity.
  - destruct n as [|n]; [exists []; reflexivity|].
    rewrite mask_frames_end_kept. eexists. reflexivity.
  - rewrite mask_frames_start. eexists. reflexivity.
Qed.

(** The number of frames after replication, for a caller's count [4k + 1]. *)
Lemma mask_frames_length (k : nat) (any add : bool) :
  List.length
    (mask_frames (Z.of_nat (4 * k + 1) + (if any && add then 1 else 0))
       any add h w)
  = ((k + 1 + (if any && add then 1 else 0)) * 4)%nat.
Proof.
  destruct any; [destruct add|]; simpl andb; cbv iota.
  - replace (Z.of_nat (4 * k + 1) + 1) with (Z.of_nat (S (S (4 * k))))
      by lia.
    rewrite mask_frames_end_added, !length_app, !repeat_length. lia.
  - rewrite Z.add_0_r. destruct k as [|k]; [reflexivity|].
    replace (4 * S k + 1)%nat with (S (S (4 * k + 3))) by lia.
    rewrite mask_frames_end_kept, !length_app, !repeat_length. simpl. lia.
  - rewrite Z.add_0_r.
    replace (4 * k + 1)%nat with (S (4 * k)) by lia.
    rewrite mask_frames_start, !length_app, !repeat_length. lia.
Qed.

End MaskShape.

Section FirstGroup.

Import Mask.

(** Whenever a mask is built for at least one frame, its first temporal
    group exists and is entirely 1. *)
Lemma first_group_ones (F : Z) (any add : bool) (h w : nat) (m : mask) :
  1 <= F -> build_mask F any add h w = inr m ->
  entirely 1 (temporal_group m 0) = true /\ (1 <= groups m)%nat.
Proof.
  intros HF. unfold build_mask.
  replace (F <? 0) with false by (symmetry; apply Z.ltb_ge; lia).
  rewrite mask_frames_to_nat.
  destruct (Z.to_nat F) as [|n] eqn:E; [lia|].
  destruct (mask_frames_head h w n any add) as [rest Hrest].
  rewrite Hrest. intro Hv. apply view_groups_ok in Hv as [-> _].
  assert (Hg : (1 <= List.length (repeat (ones_frame h w) 4 ++ rest) / 4)%nat).
  { apply Nat.div_le_lower_bound; [lia|].
    rewrite length_app, repeat_length. lia. }
  split.
  - apply entirely_group. intros f Hf.
    rewrite nth_group4 in Hf by lia.
    change (firstn 4 (skipn (4 * 0) (repeat (ones_frame h w) 4 ++ rest)))
      with (repeat (ones_frame h w) 4) in Hf.
    apply repeat_spec in Hf. subst f. apply frame_all_one.
  - rewrite groups_transpose, group4_length. exact Hg.
Qed.

End FirstGroup.

(** C4 (amended): for a caller's frame count [F = 4k + 1] and any latent
    size, the mask is built with shape [(4, lat_frames, lat_h, lat_w)], where
    [lat_frames] is [(F + 3) / 4 = k + 1], and one more when a frame is
    reserved for the end image; and the first temporal group of every mask
    built for at least one frame is entirely 1. *)
Theorem conditioning_mask_shape {W : Type} (self : wan_i2v) (a : gen_args)
    (w0 : W) (k : nat) :
  stride_t self = 4 -> frame_num a = Z.of_nat (4 * k + 1) ->
  (exists m,
      result_of (conditioning_mask self a w0) = Ok m
      /\ lat_frames self a
         = (frame_num a + 3) / 4 + (if end_frame_added a then 1 else 0)
      /\ Mask.has_shape 4 (Z.to_nat (lat_frames self a))
           (Z.to_nat (lat_h self a)) (Z.to_nat (lat_w self a)) m = true
      /\ Mask.entirely 1 (Mask.temporal_group m 0) = true)
  /\ (forall F any add h w m,
         1 <= F -> Mask.build_mask F any add h w = inr m ->
         Mask.entirely 1 (Mask.temporal_group m 0) = true
         /\ (1 <= Mask.groups m)%nat).
Proof.
  intros Hstride HF. split; [|intros; eapply first_group_ones; eassumption].
  set (h := Z.to_nat (lat_h self a)). set (w := Z.to_nat (lat_w self a)).
  set (extra := if end_frame_added a then 1%nat else 0%nat).
  assert (Hused : frame_num_used a
                  = Z.of_nat (4 * k + 1)
                    + (if any_end_frame a && add_frames_for_end_image a
                       then 1 else 0)).
  { unfold frame_num_used, end_frame_added. rewrite HF.
    destruct (any_end_frame a && add_frames_for_end_image a); lia. }
  assert (Hlat : lat_frames self a = Z.of_nat (k + 1 + extra)).
  { unfold lat_frames, extra. rewrite Hused, HF, Hstride.
    unfold end_frame_added.
    destruct (any_end_frame a && add_frames_for_end_image a).
    - replace (Z.of_nat (4 * k + 1) + 1 - 2) with (Z.of_nat k * 4) by lia.
      rewrite Z.div_mul by lia. lia.
    - replace (Z.of_nat (4 * k + 1) - 1) with (Z.of_nat k * 4) by lia.
      rewrite Z.div_mul by lia. lia. }
  assert (Hquarter : (frame_num a + 3) / 4 = Z.of_nat k + 1).
  { rewrite HF. replace (Z.of_nat (4 * k + 1) + 3)
      with ((Z.of_nat k + 1) * 4) by lia.
    apply Z.div_mul. lia. }
  pose proof (mask_frames_length h w k (any_end_frame a)
                (add_frames_for_end_image a)) as Hlen.
  rewrite <- Hused in Hlen.
  fold (end_frame_added a) in Hlen. fold extra in Hlen.
  set (l := Mask.mask_frames (frame_num_used a) (any_end_frame a)
              (add_frames_for_end_image a) h w) in *.
  assert (Hg : (List.length l / 4 = k + 1 + extra)%nat)
    by (rewrite Hlen; apply Nat.div_mul; lia).
  assert (Hdiv : (List.length l / 4 * 4 = List.length l)%nat)
    by (rewrite Hg; symmetry; exact Hlen).
  assert (Hbuild : Mask.build_mask (frame_num_used a) (any_end_frame a)
                     (add_frames_for_end_image a) h w
                   = inr (Mask.transpose12
                            (Mask.group4 (List.length l / 4) l))).
  { unfold Mask.build_mask.
    replace (frame_num_used a <? 0) with false
      by (symmetry; apply Z.ltb_ge; rewrite Hused;
          destruct (any_end_frame a && add_frames_for_end_image a); lia).
    apply view_groups_divisible. exact Hdiv. }
  exists (Mask.transpose12 (Mask.group4 (List.length l / 4) l)).
  split; [|split; [|split]].
  - unfold conditioning_mask, bind, emit, lift_sum, result_of.
    replace (frame_num_used a <? 0) with false
      by (symmetry; apply Z.ltb_ge; rewrite Hused;
          destruct (any_end_frame a && add_frames_for_end_image a); lia).
    fold h w. rewrite Hbuild. reflexivity.
  - rewrite Hlat, Hquarter. unfold extra.
    destruct (end_frame_added a); lia.
  - rewrite Hlat, Nat2Z.id, <- Hg.
    apply transposed_shape; [lia|].
    intros f Hf. apply (mask_frames_shaped h w _ _ _ f Hf).
  - apply (first_group_ones (frame_num_used a) (any_end_frame a)
             (add_frames_for_end_image a) h w); [|exact Hbuild].
    rewrite Hused.
    destruct (any_end_frame a && add_frames_for_end_image a); lia.
Qed.

Lemma conditioning_mask_shape_witness :
  exists m,
    result_of (conditioning_mask (Demo.pipeline 0)
                 (Demo.call "unipc" None 81 3 7 true) (Demo.start None))
    = Ok m
    /\ Mask.has_shape 4 21 2 2 m = true.
Proof.
  destruct (proj1 (conditioning_mask_shape (Demo.pipeline 0)
                     (Demo.call "unipc" None 81 3 7 true) (Demo.start None)
                     20 eq_refl eq_refl))
    as (m & Hm & _ & Hshape & _).
  exists m. split; [exact Hm | exact Hshape].
Defined.

(** * Further properties *)

(** ** [optimized_scale] *)







(** ** The guidance arithmetic *)

Lemma mul_rows_shape (P N : tensor) (alpha : list Qc) :
  List.length N = List.length alpha -> same_shape P N = true ->
  same_shape P (mul_rows N alpha) = true.
Proof.
  unfold mul_rows. revert N alpha.
  induction P as [|p P IH]; intros N alpha Hlen Hs.
  - apply same_shape_nil_l in Hs. subst N. reflexivity.
  - destruct N as [|n N]; [apply same_shape_nil_r in Hs; discriminate|].
    destruct alpha as [|a alpha]; [discriminate|].
    apply same_shape_cons in Hs as [Hl Hs]. simpl.
    apply same_shape_cons. split.
    + rewrite length_map. exact Hl.
    + apply IH; [simpl in Hlen; lia | exact Hs].
Qed.

Lemma optimized_scale_length (P N : tensor) :
  same_shape P N = true ->
  List.length N = List.length (optimized_scale P N).
Proof.
  intro Hs. rewrite optimized_scale_rows, length_map, length_combine.
  apply same_shape_length in Hs. lia.
Qed.

(** What line 411 combines: [P] and the unconditional prediction as the
    [cfg_star_switch] block left it, of the shape of [P]. *)
Lemma guidance_combination (sw : bool) (cz : Z) (g : Qc) (i : nat)
    (P N : tensor) :
  same_shape P N = true ->
  exists N',
    same_shape P N' = true
    /\ guidance sw cz g i P N = inr (add N' (scale g (sub P N'))).
Proof.
  intro Hs. unfold guidance, cfg_star_block. rewrite Hs. simpl.
  destruct sw; [destruct (Z.of_nat i <=? cz)|]; simpl.
  - exists N. split; [exact Hs | reflexivity].
  - exists (mul_rows N (optimized_scale P N)). split; [|reflexivity].
    apply mul_rows_shape; [apply optimized_scale_length|]; exact Hs.
  - exists N. split; [exact Hs | reflexivity].
Qed.


Lemma row_combination_length (g : Qc) (p n : row) :
  List.length p = List.length n ->
  List.length (row_map2 Qcplus n (map (Qcmult g) (row_map2 Qcminus p n)))
  = List.length p.
Proof.
  intro Hlen. unfold row_map2.
  rewrite !length_map, !length_combine, !length_map, !length_combine. lia.
Qed.




(** X4: whenever the two predictions agree in shape, the guided prediction
    is produced and has that shape too, on every branch of the arithmetic. *)
Theorem guidance_shape (sw : bool) (cz : Z) (g : Qc) (i : nat)
    (P N : tensor) :
  same_shape P N = true ->
  exists t, guidance sw cz g i P N = inr t /\ same_shape P t = true.
Proof.
  intro Hs. destruct (guidance_combination sw cz g i P N Hs)
    as [N' [Hs' ->]].
  eexists. split; [reflexivity|].
  clear Hs N. revert N' Hs'.
  induction P as [|p P IH]; intros N' Hs'.
  - apply same_shape_nil_l in Hs'. subst N'. reflexivity.
  - destruct N' as [|n N']; [apply same_shape_nil_r in Hs'; discriminate|].
    apply same_shape_cons in Hs' as [Hl Hs'].
    unfold add, sub, scale, map2 in *. simpl.
    apply same_shape_cons. split.
    + symmetry. apply row_combination_length. exact Hl.
    + apply IH. exact Hs'.
Qed.

Lemma guidance_shape_witness :
  exists t,
    guidance true 0 (Qc_of_Z 5) 4 [[1%Qc; 0%Qc]] [[1%Qc; 1%Qc]] = inr t
    /\ same_shape [[1%Qc; 0%Qc]] t = true.
Proof.
  apply (guidance_shape true 0 (Qc_of_Z 5) 4
           [[1%Qc; 0%Qc]] [[1%Qc; 1%Qc]]).
  reflexivity.
Defined.

(** ** The latent size (lines 203-212) *)





(** ** The conditioning mask: when it is built, and its interior *)

Section MaskExtras.

Import Mask.

Variables h w : nat.

(** The frames after replication: frame 0 four times, zeroed frames, and a
    tail of at most four frames of ones. *)
Lemma mask_frames_form (n : nat) (any add : bool) :
  exists zeros tail,
    mask_frames (Z.of_nat (S n)) any add h w
    = repeat (ones_frame h w) 4
      ++ repeat (zero_fill (ones_frame h w)) zeros ++ tail
    /\ (List.length tail <= 4)%nat
    /\ (any = false -> tail = [])
    /\ (any && add = false -> (zeros + List.length tail = n)%nat).
Proof.
  destruct any; [destruct add|].
  - destruct n as [|n].
    + exists 0%nat, (repeat (ones_frame h w) 4).
      split; [reflexivity|]. split; [simpl; lia|].
      split; intro; discriminate.
    + exists n, (repeat (ones_frame h w) 4).
      rewrite mask_frames_end_added.
      split; [reflexivity|]. split; [simpl; lia|].
      split; intro; discriminate.
  - destruct n as [|n].
    + exists 0%nat, []. split; [reflexivity|]. split; [simpl; lia|].
      split; [intro; discriminate | reflexivity].
    + exists n, [ones_frame h w]. rewrite mask_frames_end_kept.
      split; [reflexivity|]. split; [simpl; lia|].
      split; [intro; discriminate | intros _; simpl; lia].
  - exists n, []. rewrite mask_frames_start, app_nil_r.
    split; [reflexivity|]. split; [simpl; lia|].
    split; [reflexivity | intros _; simpl; lia].
Qed.

Lemma quarter_iff (n : nat) :
  ((n + 4) / 4 * 4 = n + 4)%nat <-> Z.of_nat (S n) mod 4 = 1.
Proof.
  pose proof (Nat.div_mod_eq (n + 4) 4) as E.
  pose proof (Nat.mod_upper_bound (n + 4) 4 ltac:(lia)) as B.
  remember ((n + 4) / 4)%nat as q eqn:Hq.
  remember ((n + 4) mod 4)%nat as r eqn:Hr. clear Hq Hr.
  assert (EZ : Z.of_nat (S n) = (Z.of_nat r + 1) + (Z.of_nat q - 1) * 4)
    by lia.
  rewrite EZ, Z.mod_add by lia.
  split; intro H.
  - assert (r = 0)%nat by lia. subst r. reflexivity.
  - destruct (Nat.eq_dec r 0) as [Hr|Hr]; [lia|].
    exfalso.
    assert (r = 1 \/ r = 2 \/ r = 3)%nat as [->|[->| ->]] by lia;
      vm_compute in H; discriminate.
Qed.

(** X6: without a frame reserved for an end image and on a non-empty latent,
    the mask is built exactly for frame counts of the form [4k + 1]; any
    other positive count makes the view raise, and a negative count makes
    [torch.ones] raise. *)
Theorem mask_built_iff_frame_count (F : Z) (any add : bool) :
  any && add = false -> (0 < h * w)%nat ->
  (F < 0 -> build_mask F any add h w = inl RuntimeError)
  /\ (1 <= F -> F mod 4 = 1 -> exists m, build_mask F any add h w = inr m)
  /\ (1 <= F -> F mod 4 <> 1 -> build_mask F any add h w = inl RuntimeError).
Proof.
  intros Hmode Hhw. split.
  { intro HF. unfold build_mask.
    replace (F <? 0) with true by (symmetry; apply Z.ltb_lt; lia).
    reflexivity. }
  assert (Hcases : 1 <= F ->
            (F mod 4 = 1 -> exists m, build_mask F any add h w = inr m)
            /\ (F mod 4 <> 1 -> build_mask F any add h w = inl RuntimeError)).
  { intro HF. unfold build_mask.
    replace (F <? 0) with false by (symmetry; apply Z.ltb_ge; lia).
    rewrite mask_frames_to_nat.
    destruct (Z.to_nat F) as [|n] eqn:E; [lia|].
    assert (EF : F = Z.of_nat (S n)) by lia.
    destruct (mask_frames_form n any add)
      as (zeros & tail & Hform & _ & _ & Hcount).
    specialize (Hcount Hmode).
    assert (Hlen : List.length (mask_frames (Z.of_nat (S n)) any add h w)
                   = (n + 4)%nat).
    { rewrite Hform, !length_app, !repeat_length. lia. }
    split; intro Hmod.
    - eexists. apply view_groups_divisible. rewrite Hlen.
      apply quarter_iff. rewrite <- EF. exact Hmod.
    - unfold view_groups. rewrite Hlen.
      destruct (Nat.eqb_spec ((n + 4) / 4 * 4 * h * w) ((n + 4) * h * w))
        as [Heq|Hne]; [|reflexivity].
      exfalso. apply Hmod. rewrite EF. apply quarter_iff.
      replace ((n + 4) / 4 * 4 * h * w)%nat
        with ((n + 4) / 4 * 4 * (h * w))%nat in Heq by lia.
      replace ((n + 4) * h * w)%nat with ((n + 4) * (h * w))%nat in Heq
        by lia.
      apply Nat.mul_cancel_r in Heq; [exact Heq | lia]. }
  split; intros HF; apply Hcases; exact HF.
Qed.

End MaskExtras.

Lemma mask_built_iff_frame_count_witness :
  (exists m, Mask.build_mask 81 false false 2 2 = inr m)
  /\ Mask.build_mask 80 false false 2 2 = inl RuntimeError.
Proof.
  split.
  - refine (proj1 (proj2 (mask_built_iff_frame_count 2 2 81 false false _ _))
              _ _); [reflexivity | simpl; lia | lia | reflexivity].
  - refine (proj2 (proj2 (mask_built_iff_frame_count 2 2 80 false false _ _))
              _ _); [reflexivity | simpl; lia | lia | ].
    vm_compute. discriminate.
Defined.

Section MaskInterior.

Import Mask.

Variables h w : nat.

Lemma frame_all_zero : frame_all 0 (zero_fill (ones_frame h w)) = true.
Proof.
  unfold frame_all, zero_fill. apply forallb_forall. intros r Hr.
  apply in_map_iff in Hr as [r0 [<- _]].
  apply forallb_forall. intros x Hx.
  apply in_map_iff in Hx as [x0 [<- _]]. reflexivity.
Qed.

(** A window of four frames lying inside the zeroed stretch. *)
Lemma window_in_zeros (zeros j : nat) (tail : list frame) (f : frame) :
  (1 <= j)%nat -> (4 * j <= zeros)%nat ->
  In f (firstn 4
          (skipn (4 * j)
             (repeat (ones_frame h w) 4
              ++ repeat (zero_fill (ones_frame h w)) zeros ++ tail))) ->
  f = zero_fill (ones_frame h w).
Proof.
  intros Hj Hz Hin.
  rewrite skipn_app, repeat_length in Hin.
  rewrite (skipn_all2 (repeat (ones_frame h w) 4)) in Hin
    by (rewrite repeat_length; lia).
  rewrite app_nil_l in Hin.
  rewrite skipn_app, repeat_length in Hin.
  rewrite firstn_app in Hin.
  rewrite length_skipn, repeat_length in Hin.
  replace (4 - (zeros - (4 * j - 4)))%nat with 0%nat in Hin by lia.
  rewrite firstn_O, app_nil_r in Hin.
  apply in_firstn, in_skipn in Hin. apply repeat_spec in Hin. exact Hin.
Qed.

(** X7: in every mask built for at least one frame, each temporal group
    strictly between the first and the last is entirely 0; with a start
    image only, the last group is entirely 0 as well. *)
Theorem interior_groups_zero (F : Z) (any add : bool) (m : mask) (j : nat) :
  1 <= F -> build_mask F any add h w = inr m -> (1 <= j)%nat ->
  ((j + 1 < groups m)%nat -> entirely 0 (temporal_group m j) = true)
  /\ (any = false -> (j < groups m)%nat ->
      entirely 0 (temporal_group m j) = true).
Proof.
  intros HF Hbuild Hj. revert Hbuild. unfold build_mask.
  replace (F <? 0) with false by (symmetry; apply Z.ltb_ge; lia).
  rewrite mask_frames_to_nat.
  destruct (Z.to_nat F) as [|n] eqn:E; [lia|].
  destruct (mask_frames_form h w n any add)
    as (zeros & tail & Hform & Htail & Hstart & _).
  rewrite Hform. intro Hv. apply view_groups_ok in Hv as [-> _].
  rewrite groups_transpose, group4_length.
  set (l := repeat (ones_frame h w) 4
            ++ repeat (zero_fill (ones_frame h w)) zeros ++ tail).
  assert (Hlen : List.length l = (4 + zeros + List.length tail)%nat).
  { unfold l. rewrite !length_app, !repeat_length. lia. }
  assert (Hg : (4 * (List.length l / 4) <= List.length l)%nat)
    by (apply Nat.Div0.mul_div_le).
  split.
  - intro Hlast. apply entirely_group. intros f Hf.
    rewrite nth_group4 in Hf by lia.
    rewrite (window_in_zeros zeros j tail f Hj);
      [apply frame_all_zero| |exact Hf].
    lia.
  - intros Hany Hlast.
    assert (Ht : List.length tail = 0%nat)
      by (rewrite (Hstart Hany); reflexivity).
    apply entirely_group. intros f Hf.
    rewrite nth_group4 in Hf by lia.
    rewrite (window_in_zeros zeros j tail f Hj);
      [apply frame_all_zero| |exact Hf].
    lia.
Qed.

End MaskInterior.

Lemma interior_groups_zero_witness :
  match Mask.build_mask 9 false false 1 1 with
  | inr m => Mask.entirely 0 (Mask.temporal_group m 2) = true
  | inl _ => False
  end.
Proof.
  destruct (Mask.build_mask 9 false false 1 1) as [e|m] eqn:H.
  - vm_compute in H. discriminate.
  - refine (proj2 (interior_groups_zero 1 1 9 false false m 2 _ H _) _ _).
    + lia.
    + lia.
    + reflexivity.
    + vm_compute in H. inversion H. vm_compute. lia.
Defined.

(** ** How the arguments show in the events of a call *)

Lemma emits_when_if {W : Type} (P : event -> Prop) (b : bool) (m : M W unit) :
  (b = true -> emits P m) -> emits P (when b m).
Proof.
  intro H. destruct b; [apply H; reflexivity | apply emits_ret].
Qed.

Ltac configured_step :=
  first
    [ apply emits_ret
    | apply emits_raise
    | apply emits_lift_sum
    | apply emits_when_if; intros ?
    | apply emits_bind; [|intros ?]
    | apply emits_emit
    | apply emits_silent
    | match goal with
      | |- emits _ (do_ext _ _) => apply emits_do_ext
      | |- emits _ (if ?b then _ else _) => destruct b eqn:?
      | |- emits _ (match ?x with _ => _ end) => destruct x eqn:?
      end ].

Ltac configured_done :=
  simpl;
  repeat match goal with
         | H : (_ && _) = true |- _ =>
             apply andb_true_iff in H; destruct H
         | H : negb _ = true |- _ => apply negb_true_iff in H
         | H : (_ <? _) = false |- _ => apply Z.ltb_ge in H
         end;
  auto.

Section Configured.

Context {W G : Type} (c : collab W G).

Lemma initial_noise_emits_any (P : event -> Prop) (seed0 : Z)
    (shape : Z * Z * Z * Z) :
  (forall s, P (EvRandInt s)) -> (forall s, P (EvRandn s shape)) ->
  emits P (initial_noise c seed0 shape).
Proof.
  intros H1 H2 w. unfold initial_noise, draw_seed, bind, trace_of.
  destruct shape as [[[b lf] lh] lw].
  destruct (seed0 >=? 0).
  - simpl. destruct (lf <? 0); simpl; repeat constructor. apply H2.
  - destruct (randint c w) as [s w1].
    destruct (lf <? 0); simpl; repeat constructor;
      solve [apply H1 | apply H2].
Qed.

Lemma select_solver_configured (self : wan_i2v) (a : gen_args) :
  emits (configured_event self a) (select_solver c a).
Proof.
  intro w. unfold select_solver, trace_of.
  destruct (String.eqb (sample_solver a) "unipc") eqn:E1.
  - apply String.eqb_eq in E1.
    destruct (unipc_timesteps c _ _ w). simpl.
    constructor; [|constructor]. simpl. rewrite E1.
    split; [reflexivity | left; reflexivity].
  - destruct (String.eqb (sample_solver a) "dpm++") eqn:E2.
    + apply String.eqb_eq in E2.
      destruct (dpm_timesteps c _ _ w). simpl.
      constructor; [|constructor]. simpl. rewrite E2.
      split; [reflexivity | right; reflexivity].
    + constructor.
Qed.

Lemma allocate_configured (self : wan_i2v) (a : gen_args) :
  emits (configured_event self a) (allocate c self a).
Proof.
  unfold allocate, conditioning_mask, encode_conditioning.
  fold (negative_prompt self a).
  repeat (first [ apply initial_noise_emits_any; intros ?
                | configured_step ]);
    configured_done.
  - destruct (any_end_frame a); split; auto.
Qed.

Lemma prepare_configured (self : wan_i2v) (a : gen_args) :
  emits (configured_event self a) (prepare c self a).
Proof.
  unfold prepare. apply emits_bind; [apply allocate_configured|].
  intros ngm.
  repeat (first [ apply select_solver_configured | configured_step ]);
    configured_done.
Qed.

Lemma forward_pass_configured (self : wan_i2v) (a : gen_args)
    (msk : Mask.mask) (i : nat) (t : Qc) (slg : option (list nat))
    (latent : tensor) :
  emits (configured_event self a) (forward_pass c a msk i t slg latent).
Proof.
  intro w. unfold forward_pass, bind, poll, when, do_ext, ret, trace_of.
  destruct (joint_pass a) eqn:Hjoint.
  - destruct (forward_joint c _ _ _ _ _ w) as [cu w1].
    destruct (interrupt c w1); simpl; repeat constructor; exact Hjoint.
  - destruct (forward_cond c _ _ _ _ w) as [p w1].
    destruct (interrupt c w1); simpl; [repeat constructor; exact Hjoint|].
    destruct (offload_model a) eqn:Hoff; simpl;
      match goal with
      | |- context [forward_uncond c ?m ?l ?t ?i ?s ?w] =>
          destruct (forward_uncond c m l t i s w) as [n w2]
      end;
      destruct (interrupt c w2); simpl; repeat constructor;
      solve [exact Hjoint | exact Hoff].
Qed.

Lemma loop_body_configured (self : wan_i2v) (a : gen_args) (msk : Mask.mask)
    (i : nat) (t : Qc) (latent : tensor) (g : G) :
  emits (configured_event self a) (loop_body c a msk i t latent g).
Proof.
  unfold loop_body.
  repeat (first [ apply forward_pass_configured
                | match goal with
                  | |- emits _ (fun w => let '(_, _) := sched_step _ _ _ _ _ w
                                         in _) =>
                      let w := fresh "w" in
                      intro w; unfold trace_of;
                      destruct (sched_step c _ _ _ _ w); simpl;
                      repeat constructor
                  end
                | configured_step ]);
    configured_done.
Qed.

Lemma sampling_loop_configured (self : wan_i2v) (a : gen_args)
    (msk : Mask.mask) (timesteps : list Qc) :
  forall (i : nat) (latent : tensor) (g : G),
    emits (configured_event self a)
      (sampling_loop c a msk i timesteps latent g).
Proof.
  induction timesteps as [|t rest IH]; intros i latent g; simpl.
  - apply emits_ret.
  - apply emits_bind; [apply loop_body_configured|].
    intros [[latent' g']|]; [apply IH | apply emits_ret].
Qed.

Lemma finish_configured (self : wan_i2v) (a : gen_args) (latent : tensor) :
  emits (configured_event self a) (finish c self a latent).
Proof.
  unfold finish.
  apply emits_bind; [repeat configured_step; configured_done|].
  intros _. apply emits_bind.
  - destruct (rank self =? 0) eqn:Hrank; [|apply emits_ret].
    apply Z.eqb_eq in Hrank. apply emits_bind.
    + intro w. unfold trace_of. destruct (vae_decode c _ _ _ w).
      simpl. repeat constructor. exact Hrank.
    + intros v. destruct (end_frame_added a); apply emits_ret.
  - intros v. repeat configured_step; configured_done.
Qed.

Lemma generate_configured (self : wan_i2v) (a : gen_args) :
  emits (configured_event self a) (generate c self a).
Proof.
  unfold generate. apply emits_bind; [apply prepare_configured|].
  intros p. apply emits_bind; [apply sampling_loop_configured|].
  intros [latent|]; [apply finish_configured | apply emits_ret].
Qed.

End Configured.

Lemma generate_event_configured {W G : Type} (c : collab W G)
    (self : wan_i2v) (a : gen_args) (w : W) (e : event) :
  In e (trace_of (generate c self a w)) -> configured_event self a e.
Proof.
  pose proof (generate_configured c self a w) as H.
  rewrite Forall_forall in H. apply H.
Qed.



(** X9: the text encoder is only ever given the input prompt and the
    negative prompt, which is [n_prompt], or [self.sample_neg_prompt] when
    [n_prompt] is empty. *)
Theorem encoded_prompts {W G : Type} (c : collab W G) (self : wan_i2v)
    (a : gen_args) (w : W) (s : string) :
  In (EvTextEncoder s) (trace_of (generate c self a w)) ->
  s = input_prompt a
  \/ (n_prompt a = EmptyString /\ s = sample_neg_prompt self)
  \/ (n_prompt a <> EmptyString /\ s = n_prompt a).
Proof.
  intro Hin. apply generate_event_configured in Hin. simpl in Hin.
  destruct Hin as [Hin|Hin]; [left; exact Hin|]. right.
  unfold negative_prompt in Hin.
  destruct (String.eqb_spec (n_prompt a) EmptyString) as [E|E].
  - left. split; assumption.
  - right. split; assumption.
Qed.

Lemma encoded_prompts_witness :
  let a := Demo.call "unipc" None 5 2 7 true in
  "blurry"%string = input_prompt a
  \/ (n_prompt a = EmptyString
      /\ "blurry"%string = sample_neg_prompt (Demo.pipeline 0))
  \/ (n_prompt a <> EmptyString /\ "blurry"%string = n_prompt a).
Proof.
  cbv zeta.
  apply (encoded_prompts Demo.env (Demo.pipeline 0)
           (Demo.call "unipc" None 5 2 7 true) (Demo.start None) "blurry").
  vm_compute. tauto.
Defined.



(** ** The polling discipline *)

Lemma polled_app_both (t2 : list event) (t1 : list event) :
  (polled_after_forward t1 = true ->
   polled_after_forward (t1 ++ t2) = polled_after_forward t2)
  /\ (forall e, polled_after_forward (e :: t1) = true ->
                polled_after_forward ((e :: t1) ++ t2)
                = polled_after_forward t2).
Proof.
  induction t1 as [|x t IH].
  - split; [reflexivity|].
    intros e He. destruct e; simpl in *; try discriminate; reflexivity.
  - destruct IH as [IH1 IH2]. split; [apply IH2|].
    intros e He. destruct e;
      try (simpl in He |- *; apply IH2; exact He);
      try (simpl in He; discriminate).
    destruct x; simpl in He; try discriminate.
    apply andb_true_iff in He as [Hi Ht].
    simpl. rewrite Hi. simpl. apply IH1. exact Ht.
Qed.

Lemma polled_app (t1 t2 : list event) :
  polled_after_forward t1 = true -> polled_after_forward t2 = true ->
  polled_after_forward (t1 ++ t2) = true.
Proof.
  intros H1 H2. rewrite (proj1 (polled_app_both t2 t1) H1). exact H2.
Qed.

Lemma polled_quiet (t : list event) :
  (forall e, In e t ->
             match e with
             | EvForward _ _ _ | EvPoll _ _ => False
             | _ => True
             end) ->
  polled_after_forward t = true.
Proof.
  induction t as [|e t IH]; intro H; [reflexivity|].
  assert (He := H e (or_introl eq_refl)).
  assert (Ht : polled_after_forward t = true)
    by (apply IH; intros x Hx; apply H; right; exact Hx).
  destruct e; simpl; try exact Ht; destruct He.
Qed.

Section Polling.

Context {W G : Type} (c : collab W G).

Lemma loop_body_polled (a : gen_args) (msk : Mask.mask) (i : nat) (t : Qc)
    (latent : tensor) (g : G) (w : W) :
  polled_after_forward (trace_of (loop_body c a msk i t latent g w)) = true.
Proof.
  unfold loop_body, forward_pass, bind, poll, when, do_ext, ret, lift_sum,
    raise, trace_of.
  destruct (joint_pass a).
  - destruct (forward_joint c _ _ _ _ _ _) as [[p n] w1].
    destruct (interrupt c w1); simpl; [rewrite Nat.eqb_refl; reflexivity|].
    destruct (guidance _ _ _ _ _ _) as [e|guided];
      destruct (offload_model a); simpl;
      try (destruct (sched_step c _ _ _ _ _) as [lg w2]);
      try (destruct (callback a)); simpl;
      rewrite Nat.eqb_refl; reflexivity.
  - destruct (forward_cond c _ _ _ _ _) as [p w1].
    destruct (interrupt c w1); simpl; [rewrite Nat.eqb_refl; reflexivity|].
    destruct (offload_model a); simpl;
      match goal with
      | |- context [forward_uncond c ?m ?l ?t ?i ?s ?w] =>
          destruct (forward_uncond c m l t i s w) as [n w2]
      end;
      destruct (interrupt c w2); simpl;
      try (rewrite !Nat.eqb_refl; reflexivity).
    all: destruct (guidance _ _ _ _ _ _) as [e|guided]; simpl;
      try (destruct (sched_step c _ _ _ _ _) as [lg w3]);
      try (destruct (callback a)); simpl;
      rewrite !Nat.eqb_refl; reflexivity.
Qed.

Lemma sampling_loop_polled (a : gen_args) (msk : Mask.mask)
    (timesteps : list Qc) :
  forall (i : nat) (latent : tensor) (g : G) (w : W),
    polled_after_forward
      (trace_of (sampling_loop c a msk i timesteps latent g w)) = true.
Proof.
  induction timesteps as [|t rest IH]; intros i latent g w; simpl;
    [reflexivity|].
  pose proof (loop_body_polled a msk i t latent g w) as Hbody.
  destruct (bind_run (loop_body c a msk i t latent g)
              (fun r => match r with
                        | None => ret None
                        | Some (latent', seed_g') =>
                            sampling_loop c a msk (S i) rest latent' seed_g'
                        end) w)
    as [(r & w1 & t1 & Hm & Hrun) | (e & w1 & t1 & Hm & Hrun)];
    rewrite Hrun; rewrite Hm in Hbody; unfold trace_of in *; simpl in *.
  - apply polled_app; [exact Hbody|].
    destruct r as [[latent' g']|]; [apply IH | reflexivity].
  - exact Hbody.
Qed.

(** X11: the cancellation flag is read directly after every forward
    evaluation, in the same step, and at no other point of a call; and a
    call makes either fused evaluations only ([joint_pass]) or separate
    conditional and unconditional evaluations only. *)
Theorem forward_evaluations_are_polled (self : wan_i2v) (a : gen_args)
    (w : W) :
  polled_after_forward (trace_of (generate c self a w)) = true
  /\ (forall k i slg,
         In (EvForward k i slg) (trace_of (generate c self a w)) ->
         (k = FwdJoint <-> joint_pass a = true)).
Proof.
  split.
  - assert (Hprep : forall r w1 t1,
               prepare c self a w = (r, w1, t1) ->
               polled_after_forward t1 = true).
    { intros r w1 t1 Hp. apply polled_quiet. intros e He.
      pose proof (prepare_no_sampling c self a w e) as Hq.
      rewrite Hp in Hq. specialize (Hq He).
      destruct e; try exact I; exact Hq. }
    assert (Hloop : forall p w1 r w2 t2,
               sampling_loop c a (p_msk p) 0 (p_timesteps p) (p_noise p)
                 (p_seed_g p) w1 = (r, w2, t2) ->
               polled_after_forward t2 = true).
    { intros p w1 r w2 t2 Hl.
      pose proof (sampling_loop_polled a (p_msk p) (p_timesteps p) 0
                    (p_noise p) (p_seed_g p) w1) as Hq.
      rewrite Hl in Hq. exact Hq. }
    destruct (generate_runs c self a w); rewrite Hgen; unfold trace_of;
      simpl.
    + eapply Hprep; eassumption.
    + apply polled_app; [eapply Hprep | eapply Hloop]; eassumption.
    + apply polled_app; [eapply Hprep | eapply Hloop]; eassumption.
    + apply polled_app; [eapply Hprep; eassumption|].
      apply polled_app; [eapply Hloop; eassumption|].
      apply polled_quiet. intros e He.
      pose proof (finish_trace c self a latent w2 e) as Hq.
      rewrite Hfin in Hq. specialize (Hq He).
      destruct e; try exact I; destruct Hq.
  - intros k i slg Hin. apply generate_event_configured in Hin.
    simpl in Hin. destruct k; split; intro H; try discriminate;
      try reflexivity; try assumption; congruence.
Qed.

End Polling.

Lemma forward_evaluations_are_polled_witness :
  FwdCond = FwdJoint
  <-> joint_pass (Demo.call "unipc" None 5 2 7 true) = true.
Proof.
  apply (proj2 (forward_evaluations_are_polled Demo.env (Demo.pipeline 0)
                  (Demo.call "unipc" None 5 2 7 true) (Demo.start None))
           FwdCond 0%nat None).
  vm_compute. tauto.
Defined.

(** ** What a cancelled call leaves undone *)

Section CancelledRun.

Context {W G : Type} (c : collab W G).

Lemma loop_body_ends_at_poll (a : gen_args) (msk : Mask.mask) (i : nat)
    (t : Qc) (latent : tensor) (g : G) (w : W) (k : nat) :
  In (EvPoll k true) (trace_of (loop_body c a msk i t latent g w)) ->
  exists t', trace_of (loop_body c a msk i t latent g w)
             = t' ++ [EvPoll k true].
Proof.
  unfold loop_body, forward_pass, bind, poll, when, do_ext, ret, lift_sum,
    raise, trace_of.
  destruct (joint_pass a).
  - destruct (forward_joint c _ _ _ _ _ _) as [[p n] w1].
    destruct (interrupt c w1) eqn:Hflag; simpl.
    + intro H.
      repeat match type of H with _ \/ _ => destruct H as [H|H] end;
        try discriminate; try contradiction.
      inversion H; subst. eexists [_; _]. reflexivity.
    + destruct (guidance _ _ _ _ _ _) as [e|guided];
        destruct (offload_model a); simpl;
        try (destruct (sched_step c _ _ _ _ _) as [lg w2]);
        try (destruct (callback a)); simpl;
        intro H; exfalso;
        repeat (destruct H as [H|H]; [discriminate|]); exact H.
  - destruct (forward_cond c _ _ _ _ _) as [p w1].
    destruct (interrupt c w1) eqn:Hflag1; simpl.
    + intro H.
      repeat match type of H with _ \/ _ => destruct H as [H|H] end;
        try discriminate; try contradiction.
      inversion H; subst. eexists [_; _]. reflexivity.
    + destruct (offload_model a); simpl;
        match goal with
        | |- context [forward_uncond c ?m ?l ?t ?i ?s ?w] =>
            destruct (forward_uncond c m l t i s w) as [n w2]
        end;
        destruct (interrupt c w2) eqn:Hflag2; simpl.
      all: try (destruct (guidance _ _ _ _ _ _) as [e|guided]; simpl;
                try (destruct (sched_step c _ _ _ _ _) as [lg w3]);
                try (destruct (callback a)); simpl;
                intro H; exfalso;
                repeat (destruct H as [H|H]; [discriminate|]); exact H).
      all: intro H;
        repeat match type of H with _ \/ _ => destruct H as [H|H] end;
        try discriminate; try contradiction;
        inversion H; subst;
        first [ eexists [_; _; _; _; _; _]; reflexivity
              | eexists [_; _; _; _; _]; reflexivity
              | eexists [_; _; _; _]; reflexivity ].
Qed.

Lemma sampling_loop_ends_at_poll (a : gen_args) (msk : Mask.mask)
    (timesteps : list Qc) (k : nat) :
  forall (i : nat) (latent : tensor) (g : G) (w : W),
    In (EvPoll k true)
       (trace_of (sampling_loop c a msk i timesteps latent g w)) ->
    exists t', trace_of (sampling_loop c a msk i timesteps latent g w)
               = t' ++ [EvPoll k true].
Proof.
  induction timesteps as [|t rest IH]; intros i latent g w; simpl.
  - intros [].
  - pose proof (loop_body_ends_at_poll a msk i t latent g w k) as Hend.
    pose proof (loop_body_cancelled c a msk i t latent g w k) as Hcancel.
    destruct (bind_run (loop_body c a msk i t latent g)
                (fun r => match r with
                          | None => ret None
                          | Some (latent', seed_g') =>
                              sampling_loop c a msk (S i) rest latent' seed_g'
                          end) w)
      as [(r & w1 & t1 & Hm & Hrun) | (e & w1 & t1 & Hm & Hrun)];
      rewrite Hrun; rewrite Hm in Hend, Hcancel;
      unfold trace_of, result_of in *; simpl in *.
    + destruct r as [[latent' g']|]; simpl.
      * intro Hin. apply in_app_or in Hin as [Hin|Hin].
        { destruct (Hcancel Hin) as [Habs _]. discriminate. }
        destruct (IH (S i) latent' g' w1 Hin) as [t' Ht'].
        rewrite Ht'. exists (t1 ++ t'). rewrite app_assoc. reflexivity.
      * rewrite app_nil_r. exact Hend.
    + exact Hend.
Qed.

(** X12: a call that sees the flag set stops there: that poll is the last
    thing it does, so the clean-up after the loop is skipped as well: the
    denoiser is not moved to the CPU, nothing is decoded, the garbage
    collector is not run and the process-group barrier is not entered. *)
Theorem cancelled_call_stops_at_poll (self : wan_i2v) (a : gen_args) (w : W)
    (k : nat) :
  In (EvPoll k true) (trace_of (generate c self a w)) ->
  (exists t', trace_of (generate c self a w) = t' ++ [EvPoll k true])
  /\ (forall e, In e (trace_of (generate c self a w)) ->
                is_wrap_up e = false).
Proof.
  intro Hpoll.
  assert (Hnot_prep : forall t1 w1 r,
             prepare c self a w = (r, w1, t1) -> ~ In (EvPoll k true) t1).
  { intros t1 w1 r Hprep Hin.
    apply (prepare_no_sampling c self a w (EvPoll k true)).
    rewrite Hprep. exact Hin. }
  assert (Hquiet_prep : forall t1 w1 r e,
             prepare c self a w = (r, w1, t1) -> In e t1 ->
             is_wrap_up e = false).
  { intros t1 w1 r e Hprep Hin.
    pose proof (prepare_trace c self a w e) as Hq. rewrite Hprep in Hq.
    specialize (Hq Hin). destruct e; try reflexivity;
      destruct Hq as [[]|[]]. }
  assert (Hquiet_loop : forall p w1 r w2 t2 e,
             sampling_loop c a (p_msk p) 0 (p_timesteps p) (p_noise p)
               (p_seed_g p) w1 = (r, w2, t2) -> In e t2 ->
             is_wrap_up e = false).
  { intros p w1 r w2 t2 e Hl Hin.
    pose proof (loop_trace c a (p_msk p) (p_timesteps p) 0 (p_noise p)
                  (p_seed_g p) w1 e) as Hq.
    rewrite Hl in Hq. destruct (Hq Hin) as [i [_ Hb]].
    destruct e; try reflexivity; destruct Hb. }
  destruct (generate_runs c self a w); rewrite Hgen in *;
    unfold trace_of in *; simpl in *.
  - exfalso. eapply Hnot_prep; eassumption.
  - exfalso. apply in_app_or in Hpoll as [Hin|Hin].
    + eapply Hnot_prep; eassumption.
    + pose proof (sampling_loop_cancelled c a (p_msk p) (p_timesteps p) k 0
                    (p_noise p) (p_seed_g p) w1) as Hc.
      rewrite Hloop in Hc. destruct (Hc Hin) as [Habs _]. discriminate.
  - apply in_app_or in Hpoll as [Hin|Hin];
      [exfalso; eapply Hnot_prep; eassumption|].
    split.
    + pose proof (sampling_loop_ends_at_poll a (p_msk p) (p_timesteps p) k 0
                    (p_noise p) (p_seed_g p) w1) as He.
      rewrite Hloop in He. destruct (He Hin) as [t' Ht'].
      simpl in Ht'. rewrite Ht'. exists (t1 ++ t').
      rewrite app_assoc. reflexivity.
    + intros e He. apply in_app_or in He as [He|He].
      * eapply Hquiet_prep; eassumption.
      * eapply Hquiet_loop; eassumption.
  - exfalso. apply in_app_or in Hpoll as [Hin|Hin];
      [eapply Hnot_prep; eassumption|].
    apply in_app_or in Hin as [Hin|Hin].
    + pose proof (sampling_loop_cancelled c a (p_msk p) (p_timesteps p) k 0
                    (p_noise p) (p_seed_g p) w1) as Hc.
      rewrite Hloop in Hc. destruct (Hc Hin) as [Habs _]. discriminate.
    + apply (finish_trace c self a latent w2 (EvPoll k true)).
      rewrite Hfin. exact Hin.
Qed.

End CancelledRun.

Lemma cancelled_call_stops_at_poll_witness :
  exists t',
    trace_of (generate Demo.env (Demo.pipeline 0)
                (Demo.call "unipc" None 5 3 7 true)
                (Demo.start (Some 3%nat)))
    = t' ++ [EvPoll 1 true].
Proof.
  apply (cancelled_call_stops_at_poll Demo.env (Demo.pipeline 0)
           (Demo.call "unipc" None 5 3 7 true) (Demo.start (Some 3%nat)) 1).
  vm_compute. tauto.
Defined.

(** ** A call that runs to the end *)

Lemma flat_map_nil {A B : Type} (f : A -> list B) (P : A -> Prop)
    (l : list A) :
  Forall P l -> (forall x, P x -> f x = []) -> flat_map f l = [].
Proof.
  intros Hall Hf. induction Hall as [|x l Hx _ IH]; simpl;
    [reflexivity|].
  rewrite (Hf x Hx), IH. reflexivity.
Qed.

Section CompletedRun.

Context {W G : Type} (c : collab W G).

Lemma loop_body_step (a : gen_args) (msk : Mask.mask) (i : nat) (t : Qc)
    (latent : tensor) (g : G) (w : W) (x : tensor * G) (w' : W)
    (t' : list event) :
  loop_body c a msk i t latent g w = (Ok (Some x), w', t') ->
  solver_steps t' = [i] /\ callbacks t' = step_callbacks a [i].
Proof.
  unfold loop_body, forward_pass, bind, poll, when, do_ext, ret, lift_sum,
    raise, step_callbacks.
  destruct (joint_pass a).
  - destruct (forward_joint c _ _ _ _ _ _) as [[p n] w1].
    destruct (interrupt c w1); simpl; [discriminate|].
    destruct (guidance _ _ _ _ _ _) as [e|guided];
      destruct (offload_model a); simpl; try discriminate;
      destruct (sched_step c _ _ _ _ _) as [lg w2];
      destruct (callback a); simpl;
      intro H; inversion H; subst; split; reflexivity.
  - destruct (forward_cond c _ _ _ _ _) as [p w1].
    destruct (interrupt c w1); simpl; [discriminate|].
    destruct (offload_model a); simpl;
      match goal with
      | |- context [forward_uncond c ?m ?l ?t ?i ?s ?w] =>
          destruct (forward_uncond c m l t i s w) as [n w2]
      end;
      destruct (interrupt c w2); simpl; try discriminate;
      destruct (guidance _ _ _ _ _ _) as [e|guided]; simpl;
      try discriminate;
      destruct (sched_step c _ _ _ _ _) as [lg w3];
      destruct (callback a); simpl;
      intro H; inversion H; subst; split; reflexivity.
Qed.

Lemma sampling_loop_steps (a : gen_args) (msk : Mask.mask)
    (timesteps : list Qc) :
  forall (i : nat) (latent : tensor) (g : G) (w : W) (latent' : tensor)
         (w' : W) (t' : list event),
    sampling_loop c a msk i timesteps latent g w = (Ok (Some latent'), w', t')
    -> solver_steps t' = seq i (List.length timesteps)
       /\ callbacks t' = step_callbacks a (seq i (List.length timesteps)).
Proof.
  induction timesteps as [|t rest IH]; intros i latent g w latent' w' t';
    simpl.
  - unfold ret, step_callbacks. intro H. inversion H.
    destruct (callback a); split; reflexivity.
  - intro Hrun.
    destruct (bind_run (loop_body c a msk i t latent g)
                (fun r => match r with
                          | None => ret None
                          | Some (latent', seed_g') =>
                              sampling_loop c a msk (S i) rest latent' seed_g'
                          end) w)
      as [(r & w1 & t1 & Hm & Hb) | (e & w1 & t1 & Hm & Hb)];
      rewrite Hb in Hrun; [|discriminate].
    destruct r as [[l1 g1]|]; [|discriminate].
    destruct (sampling_loop c a msk (S i) rest l1 g1 w1)
      as [[r2 w2] t2] eqn:Hrest.
    unfold result_of, world_of, trace_of in Hrun. simpl in Hrun.
    inversion Hrun; subst.
    destruct (loop_body_step a msk i t latent g w (l1, g1) w1 t1 Hm)
      as [Hs1 Hc1].
    destruct (IH (S i) l1 g1 w1 latent' w' t2 Hrest) as [Hs2 Hc2].
    unfold solver_steps, callbacks in *. rewrite !flat_map_app.
    rewrite Hs1, Hs2, Hc1, Hc2. unfold step_callbacks.
    destruct (callback a); split; reflexivity.
Qed.

Lemma prepare_marks_start (self : wan_i2v) (a : gen_args) (w : W)
    (p : prepared) (w1 : W) (t1 : list event) :
  prepare c self a w = (Ok p, w1, t1) ->
  solver_steps t1 = []
  /\ callbacks t1 = (if callback a then [(-1, true)] else []).
Proof.
  intro Hp. split.
  - apply flat_map_nil with (P := prepare_event self a).
    + pose proof (prepare_emits c self a w) as H. rewrite Hp in H. exact H.
    + intros e He. destruct e; try reflexivity; destruct He as [[]|[]].
  - revert Hp. unfold prepare at 1. intro Hp.
    match type of Hp with
    | bind ?m ?f w = _ => destruct (bind_run m f w)
        as [(x & w0 & t0 & Hm & Hrun) | (e & w0 & t0 & Hm & Hrun)]
    end; rewrite Hrun in Hp; [|discriminate].
    inversion Hp as [[Hr Hw Ht]]. clear Hp Hrun.
    unfold callbacks. rewrite flat_map_app.
    rewrite (flat_map_nil _ (allocate_event self a) t0);
      [| pose proof (allocate_emits c self a w) as H; rewrite Hm in H;
         exact H
       | intros e He; destruct e; try reflexivity; destruct He ].
    revert Hr.
    unfold select_solver, bind, when, do_ext, ret, raise, result_of,
      trace_of.
    destruct (String.eqb (sample_solver a) "unipc");
      [destruct (unipc_timesteps c _ _ w0) as [ts w2]
      |destruct (String.eqb (sample_solver a) "dpm++");
       [destruct (dpm_timesteps c _ _ w0) as [ts w2]|]];
      simpl; try discriminate;
      destruct (offload_model a); simpl;
      destruct (enable_teacache c _); simpl;
      destruct (callback a); simpl; intros _; reflexivity.
Qed.

(** X13: a call that returns a video has made exactly one solver step per
    timestep of the schedule, in the order 0, 1, 2, ...; and its progress
    callbacks, if a callback was given, are the start marker [(-1, True)]
    followed by [(i, False)] after each step [i], in that order. *)
Theorem completed_call_steps_once_per_timestep (self : wan_i2v)
    (a : gen_args) (w : W) (v : video) :
  result_of (generate c self a w) = Ok (Some v) ->
  exists p w1 t1,
    prepare c self a w = (Ok p, w1, t1)
    /\ solver_steps (trace_of (generate c self a w))
       = seq 0 (List.length (p_timesteps p))
    /\ callbacks (trace_of (generate c self a w))
       = (if callback a
          then (-1, true)
               :: map (fun j => (Z.of_nat j, false))
                    (seq 0 (List.length (p_timesteps p)))
          else []).
Proof.
  intro Hv.
  destruct (generate_runs c self a w); rewrite Hgen in *;
    unfold result_of, trace_of in *; simpl in *; try discriminate.
  exists p, w1, t1. split; [exact Hprep|].
  destruct (prepare_marks_start self a w p w1 t1 Hprep) as [Hs1 Hc1].
  destruct (sampling_loop_steps a (p_msk p) (p_timesteps p) 0 (p_noise p)
              (p_seed_g p) w1 latent w2 t2 Hloop) as [Hs2 Hc2].
  assert (Hfinish : solver_steps t3 = [] /\ callbacks t3 = []).
  { pose proof (finish_emits c self a latent w2) as H. rewrite Hfin in H.
    split; apply flat_map_nil with (P := finish_event self a);
      try exact H; intros e He; destruct e; try reflexivity; destruct He. }
  destruct Hfinish as [Hs3 Hc3].
  unfold solver_steps, callbacks in *. rewrite !flat_map_app.
  rewrite Hs1, Hs2, Hs3, Hc1, Hc2, Hc3, !app_nil_r.
  unfold step_callbacks. split; [reflexivity|].
  destruct (callback a); reflexivity.
Qed.

End CompletedRun.

Lemma completed_call_steps_once_per_timestep_witness :
  exists p w1 t1,
    prepare Demo.env (Demo.pipeline 0) (Demo.call "unipc" None 5 2 7 true)
      (Demo.start None) = (Ok p, w1, t1)
    /\ solver_steps
         (trace_of (generate Demo.env (Demo.pipeline 0)
                      (Demo.call "unipc" None 5 2 7 true) (Demo.start None)))
       = seq 0 (List.length (p_timesteps p))
    /\ callbacks
         (trace_of (generate Demo.env (Demo.pipeline 0)
                      (Demo.call "unipc" None 5 2 7 true) (Demo.start None)))
       = (-1, true)
         :: map (fun j => (Z.of_nat j, false))
              (seq 0 (List.length (p_timesteps p))).
Proof.
  eapply (completed_call_steps_once_per_timestep Demo.env (Demo.pipeline 0)
            (Demo.call "unipc" None 5 2 7 true) (Demo.start None)).
  vm_compute. reflexivity.
Defined.

(** ** The loop does not stop by itself *)

Section Progress.

Context {W G : Type} (c : collab W G).




End Progress.



(** ** Which exception, and why *)

Section RaisesLemmas.

Context {W : Type}.







End RaisesLemmas.



Lemma build_mask_error (F : Z) (any add : bool) (h w : nat) (e : exn) :
  Mask.build_mask F any add h w = inl e -> e = RuntimeError.
Proof.
  unfold Mask.build_mask, Mask.view_groups.
  destruct (F <? 0); [congruence|].
  match goal with |- context [Nat.eqb ?x ?y] => destruct (Nat.eqb x y) end;
    congruence.
Qed.


Section ExceptionCauses.

Context {W G : Type} (c : collab W G).






End ExceptionCauses.


(** ** A well-formed call returns *)


Section WellFormedCall.

Context {W G : Type} (c : collab W G).





End WellFormedCall.


(** ** Too few frames *)

Section TooFewFrames.

Context {W G : Type} (c : collab W G).

Lemma allocate_too_few_frames (self : wan_i2v) (a : gen_args) (w : W) :
  (max_area a <? 0) = false ->
  ((if any_end_frame a then frame_num_used a - 2 else frame_num_used a - 1)
   <? 0) = true ->
  exists w1 t1,
    allocate c self a w = (Raise RuntimeError, w1, t1)
    /\ forall b, ~ In (EvVaeEncode b) t1.
Proof.
  intros Harea Hfill.
  unfold allocate, initial_noise, draw_seed, conditioning_mask,
    encode_conditioning, noise_shape.
  unfold bind, emit, when, ret, raise, do_ext, lift_sum.
  rewrite Harea.
  destruct (any_end_frame a); simpl;
    (destruct (seed a >=? 0); simpl; [|destruct (randint c _) as [s0 w0]]);
    destruct (lat_frames self a <? 0); simpl;
    try (do 2 eexists; split; [reflexivity|];
         intros b Hb; simpl in Hb; intuition discriminate);
    destruct (frame_num_used a <? 0); simpl;
    try (do 2 eexists; split; [reflexivity|];
         intros b Hb; simpl in Hb; intuition discriminate);
    destruct (Mask.build_mask _ _ _ _ _) as [e|m] eqn:Hmask; simpl;
    try (apply build_mask_error in Hmask; subst e;
         do 2 eexists; split; [reflexivity|];
         intros b Hb; simpl in Hb; intuition discriminate);
    destruct (negb (t5_cpu self) && offload_model a); simpl;
    destruct (offload_model a); simpl;
    rewrite Hfill; simpl;
    do 2 eexists; (split; [reflexivity|]);
    intros b Hb; simpl in Hb; intuition discriminate.
Qed.

(** X17: a call with too few frames to fill the encoder input, fewer than
    one frame, or fewer than two when an end image is given, raises
    [RuntimeError] before the VAE encodes anything, whatever the solver name
    is. *)
Theorem too_few_frames_raise (self : wan_i2v) (a : gen_args) (w : W) :
  0 <= max_area a ->
  frame_num_used a < (if any_end_frame a then 2 else 1) ->
  result_of (generate c self a w) = Raise RuntimeError
  /\ forall b, ~ In (EvVaeEncode b) (trace_of (generate c self a w)).
Proof.
  intros Harea Hfew.
  destruct (allocate_too_few_frames self a w) as (w1 & t1 & Halloc & Hquiet).
  - apply Z.ltb_ge. exact Harea.
  - apply Z.ltb_lt. destruct (any_end_frame a); lia.
  - unfold generate, prepare, bind, result_of, trace_of.
    rewrite Halloc. simpl. split; [reflexivity | exact Hquiet].
Qed.

End TooFewFrames.

Lemma too_few_frames_raise_witness :
  result_of (generate Demo.env (Demo.pipeline 0)
               (Demo.call "euler" (Some Demo.picture) 1 3 7 false)
               (Demo.start None))
  = Raise RuntimeError.
Proof.
  apply (too_few_frames_raise Demo.env (Demo.pipeline 0)
           (Demo.call "euler" (Some Demo.picture) 1 3 7 false)
           (Demo.start None)).
  - simpl. lia.
  - vm_compute. reflexivity.
Defined.

(** ** The selective-layer window at its bounds *)

Lemma floor_scaled_zero (S : Z) : Qfloor (0%Qc * inject_Z S)%Q = 0.
Proof.
  transitivity (Qfloor 0%Q); [|reflexivity].
  apply Qfloor_comp. change (this 0%Qc) with 0%Q. ring.
Qed.

Lemma floor_scaled_one (S : Z) : Qfloor (1%Qc * inject_Z S)%Q = S.
Proof.
  transitivity (Qfloor (inject_Z S)); [|apply Qfloor_Z].
  apply Qfloor_comp. change (this 1%Qc) with 1%Q. ring.
Qed.

(** X18: with the default bounds [slg_start = 0.0], [slg_end = 1.0] the
    selective-layer set is passed at every step below [sampling_steps] (and
    at none from there on); and whenever [slg_end <= slg_start], for a
    non-negative [sampling_steps], it is passed at no step. *)
Theorem selective_layer_window_bounds (layers : option (list nat)) (S : Z)
    (i : nat) :
  slg_layers_local layers 0%Qc 1%Qc S i
  = (if Z.of_nat i <? S then layers else None)
  /\ (forall slg_start slg_end : Qc,
         (slg_end <= slg_start)%Qc -> 0 <= S ->
         slg_layers_local layers slg_start slg_end S i = None).
Proof.
  split.
  - unfold slg_layers_local. rewrite in_slg_window_floor.
    unfold floor_window. rewrite floor_scaled_zero, floor_scaled_one.
    replace (0 <=? Z.of_nat i) with true by (symmetry; apply Z.leb_le; lia).
    reflexivity.
  - intros slg_start slg_end Hle HS.
    unfold slg_layers_local. rewrite in_slg_window_floor.
    unfold floor_window.
    assert (Hfloor : Qfloor (slg_end * inject_Z S)%Q
                     <= Qfloor (slg_start * inject_Z S)%Q).
    { apply Qfloor_resp_le. apply Qmult_le_compat_r; [exact Hle|].
      unfold Qle. simpl. lia. }
    destruct (Qfloor (slg_start * inject_Z S)%Q <=? Z.of_nat i) eqn:E1;
      [|reflexivity].
    apply Z.leb_le in E1.
    replace (Z.of_nat i <? Qfloor (slg_end * inject_Z S)%Q) with false
      by (symmetry; apply Z.ltb_ge; lia).
    reflexivity.
Qed.

Lemma selective_layer_window_bounds_witness :
  slg_layers_local (Some [9%nat]) (Q2Qc (1 # 2)) (Q2Qc (1 # 4)) 40 7 = None.
Proof.
  apply (proj2 (selective_layer_window_bounds (Some [9%nat]) 40 7)).
  - vm_compute. discriminate.
  - lia.
Defined.
